(** * Neighbor: the systemd journal source

    A shallow embedding of [data/sources/base.py] and
    [data/sources/systemd/systemd_source.py]: the event model, the
    priority mapping, the translation of journal entries, the chunk
    planner, the chunk worker, the background scanner and the
    [start]/[poll]/[stop] life cycle of [SystemdSource].

    Conventions.
    - A [datetime] is a [Z]: microseconds since the epoch, the resolution
      of the type.  One second is [1000000].
    - Python's [None] is Rocq's [None]; truthiness is written out
      ([str_truthy], [msg_truthy]); [if self.cursor:] is a match on the
      cursor and [str_truthy] of its text.
    - An exception is a value of [exn]; a method of an object is a
      computation in the monad [M], whose state survives a raise, as the
      fields of a Python object do. *)

From stdpp Require Import base option list strings gmap pretty.
From Stdlib Require Import Ascii ZArith QArith Lia.

Open Scope Z_scope.

(** ** Event model ([base.py]) *)

Inductive Severity := DEBUG | INFO | WARNING | ERROR | CRITICAL.

(** [Severity.value], the number the enumeration gives each member. *)
Definition Severity_value (s : Severity) : Z :=
  match s with
  | DEBUG => 1 | INFO => 2 | WARNING => 3 | ERROR => 4 | CRITICAL => 5
  end.

(** The values a journal field can hold once python-systemd has
    converted it.  [VOther] stands for the converted types that are none
    of the others (UUID, timedelta and the like). *)
Inductive value :=
| VStr (s : string)
| VInt (n : Z)
| VBool (b : bool)
| VFloat (q : Q)
| VBytes (b : list Byte.byte)
| VDatetime (t : Z)
| VOther.

(** [isinstance(v, (str, int, float, bool))] *)
Definition is_scalar (v : value) : bool :=
  match v with
  | VStr _ | VInt _ | VBool _ | VFloat _ => true
  | VBytes _ | VDatetime _ | VOther => false
  end.

Record LogEvent := mkLogEvent {
  source : string;
  severity : Severity;
  timestamp : option Z;
  subsystem : string;
  raw_message : string;
  structured_data : gmap string value
}.

(** ** Journal entries

    The dict python-systemd's [Reader] yields for an entry.  The fields
    the source reads have the types their converters give them; every
    other field of the entry is in [e_extra].  An entry whose PRIORITY
    the converter could not turn into an int, and so left as bytes, is
    not of this type. *)

Inductive Message := MsgStr (s : string) | MsgBytes (b : list Byte.byte).

Record Entry := mkEntry {
  e_MESSAGE : option Message;
  e_PRIORITY : option Z;
  e_REALTIME_TIMESTAMP : option Z;
  e_SYSLOG_IDENTIFIER : option string;
  e_SYSTEMD_UNIT : option string;
  e_CURSOR : option string;
  e_extra : gmap string value
}.

Definition str_truthy (s : string) : bool :=
  match s with EmptyString => false | _ => true end.

Definition msg_truthy (m : Message) : bool :=
  match m with
  | MsgStr s => str_truthy s
  | MsgBytes b => match b with [] => false | _ => true end
  end.

Definition with_field {A} (k : string) (f : A → value) (o : option A)
    (m : gmap string value) : gmap string value :=
  match o with Some x => <[k := f x]> m | None => m end.

Definition Message_value (m : Message) : value :=
  match m with MsgStr s => VStr s | MsgBytes b => VBytes b end.

(** [entry.items()], as a map. *)
Definition items (entry : Entry) : gmap string value :=
  with_field "MESSAGE" Message_value (e_MESSAGE entry)
  (with_field "PRIORITY" VInt (e_PRIORITY entry)
  (with_field "__REALTIME_TIMESTAMP" VDatetime (e_REALTIME_TIMESTAMP entry)
  (with_field "SYSLOG_IDENTIFIER" VStr (e_SYSLOG_IDENTIFIER entry)
  (with_field "_SYSTEMD_UNIT" VStr (e_SYSTEMD_UNIT entry)
  (with_field "__CURSOR" VStr (e_CURSOR entry)
  (e_extra entry)))))).

(** ** [_map_priority_to_severity] *)

Definition _map_priority_to_severity (priority : option Z) : Severity :=
  match priority with
  | None => INFO
  | Some priority =>
      if priority <=? 3 then ERROR
      else if priority =? 4 then WARNING
      else if priority <=? 6 then INFO
      else DEBUG
  end.

(** ** [_entry_to_dict]

    The result is the keyword dictionary of [LogEvent]; it has exactly
    the fields of the record, so [LogEvent( **ev_dict)] is the record
    itself and a dict that is not [None] is never empty, hence truthy. *)

Section Translation.

(** [bytes.decode('utf-8', errors='replace')], a primitive of the
    runtime. *)
Variable decode_utf8 : list Byte.byte → string.

(** Python's [a or b] on a field that may be absent. *)
Definition or_str (a : option string) (b : string) : string :=
  match a with
  | Some s => if str_truthy s then s else b
  | None => b
  end.

Definition _entry_to_dict (entry : Entry) : option LogEvent :=
  match e_MESSAGE entry with
  | None => None
  | Some msg =>
      if negb (msg_truthy msg) then None
      else
        let msg := match msg with
                   | MsgBytes b => decode_utf8 b
                   | MsgStr s => s
                   end in
        Some {| source := "systemd";
                severity := _map_priority_to_severity (e_PRIORITY entry);
                timestamp := e_REALTIME_TIMESTAMP entry;
                subsystem :=
                  or_str (e_SYSLOG_IDENTIFIER entry)
                    (or_str (e_SYSTEMD_UNIT entry) "unknown");
                raw_message := msg;
                structured_data :=
                  filter (λ kv, is_scalar kv.2 = true) (items entry) |}
  end.

End Translation.

(** ** Exceptions and the method monad *)

Inductive exn :=
| OSError
| PermissionError
| UnicodeDecodeError
| TypeError
| AttributeError.

(** The text the handlers print for an exception.  The source prints
    [str(e)], the message of the exception; the name of its class stands
    for that message here. *)
Definition exn_str (e : exn) : string :=
  match e with
  | OSError => "OSError"
  | PermissionError => "PermissionError"
  | UnicodeDecodeError => "UnicodeDecodeError"
  | TypeError => "TypeError"
  | AttributeError => "AttributeError"
  end.

Inductive result (A : Type) :=
| Ok (a : A)
| Raised (e : exn).
Arguments Ok {A} a.
Arguments Raised {A} e.

(** A computation over a mutable state [S]: it returns or raises, and in
    both cases leaves a state behind. *)
Definition M (S A : Type) : Type := S → result A * S.

Definition ret {S A} (a : A) : M S A := λ s, (Ok a, s).

Definition bind {S A B} (m : M S A) (k : A → M S B) : M S B :=
  λ s, match m s with
       | (Ok a, s') => k a s'
       | (Raised e, s') => (Raised e, s')
       end.

Definition raise {S A} (e : exn) : M S A := λ s, (Raised e, s).

(** [try: m  except Exception as e: h e] *)
Definition try_except {S A} (m : M S A) (h : exn → M S A) : M S A :=
  λ s, match m s with
       | (Ok a, s') => (Ok a, s')
       | (Raised e, s') => h e s'
       end.

Definition get {S} : M S S := λ s, (Ok s, s).
Definition modify {S} (f : S → S) : M S unit := λ s, (Ok tt, f s).

Declare Scope method_scope.
Delimit Scope method_scope with method.
Notation "x <~ m ;; k" := (bind m (λ x, k))
  (at level 100, m at next level, right associativity) : method_scope.
Notation "m ;;; k" := (bind m (λ _, k))
  (at level 100, right associativity) : method_scope.
Open Scope method_scope.

(** ** The Reader capability ([systemd.journal.Reader])

    The journal is not part of this program; the source uses it through
    these operations.  Each may raise, and mutates the handle [R].
    [get_next] and [get_previous] return [None] for the empty dict.
    [iter_entries] is the [for entry in reader] protocol: the entries
    already available, in order, then either exhaustion or a read error;
    the capability guarantees that the iteration is finite.  [close]
    returns nothing and does not fail. *)

Class JournalReader (R : Type) := {
  seek_head : M R unit;
  seek_tail : M R unit;
  seek_cursor : string → M R unit;
  seek_realtime : Z → M R unit;
  get_next : M R (option Entry);
  get_previous : M R (option Entry);
  this_boot : M R unit;
  iter_entries : R → list Entry * option exn * R;
  close : R → R
}.

Inductive TimePeriod := ALL | BOOT | NOW | CUSTOM.

Definition TimePeriod_eqb (a b : TimePeriod) : bool :=
  match a, b with
  | ALL, ALL | BOOT, BOOT | NOW, NOW | CUSTOM, CUSTOM => true
  | _, _ => false
  end.

(** A time range or chunk: [(start_time, end_time)]. *)
Definition Chunk : Type := Z * Z.

Definition SECOND : Z := 1000000.

(** A number given as [custom_start_time], as far as the source looks at
    it: its truth value ([False] for zero) and what
    [datetime.fromtimestamp] makes of it, a datetime or the exception it
    raises for a value no datetime can hold. *)
Record FloatTime := mkFloatTime {
  ft_truthy : bool;
  ft_datetime : result Z
}.

(** The supervisor thread, between two of its steps: the events it has
    still to put on the queue, in order, and the exception, if any, that
    ends its [try] block once they are put. *)
Record Thread := mkThread {
  pending : list LogEvent;
  abort : option exn
}.

(** [str.strip()] on the checkpoint's text: the ASCII white space of
    [str.isspace].  The text is taken as ASCII without carriage returns:
    the white space beyond ASCII that [str.strip()] also removes, and the
    newline translation of a read in text mode, are not modelled. *)
Definition is_space (a : ascii) : bool :=
  let n := nat_of_ascii a in
  ((9 <=? n) && (n <=? 13) || (28 <=? n) && (n <=? 32))%nat.

Fixpoint lstrip (s : string) : string :=
  match s with
  | String a s' => if is_space a then lstrip s' else s
  | EmptyString => EmptyString
  end.

Fixpoint rstrip (s : string) : string :=
  match s with
  | String a s' =>
      let r := rstrip s' in
      if is_space a && negb (str_truthy r) then EmptyString else String a r
  | EmptyString => EmptyString
  end.

Definition strip (s : string) : string := rstrip (lstrip s).

(** A text of printable ASCII characters other than the space (codes 33
    to 126), as the cursors of the journal are. *)
Fixpoint graphic (s : string) : bool :=
  match s with
  | String a s =>
      let n := nat_of_ascii a in
      ((33 <=? n) && (n <=? 126))%nat && graphic s
  | EmptyString => true
  end.

(** ** The source and its environment *)

Section Source.

Context {R : Type} `{!JournalReader R}.

Variable decode_utf8 : list Byte.byte → string.

(** [timedelta(seconds = total_duration / cpu_count)], in
    microseconds, for a [total_duration] given in microseconds.  The
    source computes it in floating point ([total_seconds()], a float
    division, and the rounding of [timedelta]'s constructor); its value
    is a parameter here, and nothing below depends on it. *)
Variable chunk_width : Z → Z → Z.

Record SystemdSource := mkSource {
  cpu_count : Z;
  journal : option R;
  cursor : option string;
  time_period : TimePeriod;
  custom_start_time : option FloatTime;
  history_queue : list LogEvent;
  history_done : bool
}.

(** [queue.Queue(maxsize=200)] *)
Definition HISTORY_MAXSIZE : nat := 200.

Definition __init__ (core_allocation : Z) (time_period : TimePeriod)
    (custom_start_time : option FloatTime) : SystemdSource :=
  {| cpu_count := if core_allocation >? 0 then core_allocation else 1;
     journal := None;
     cursor := None;
     time_period := time_period;
     custom_start_time := custom_start_time;
     history_queue := [];
     history_done := false |}.

(** What the process can see and change outside the object. *)
Record World := mkWorld {
  w_now : Z;                         (* [datetime.now()] *)
  w_reader : result R;               (* [systemd.journal.Reader()] *)
  w_cursor_dir : bool;               (* the checkpoint directory exists *)
  w_cursor_file : option string;     (* the checkpoint file, if any *)
  w_mkdir_fault : option exn;
  w_read_fault : option exn;         (* [open(path, 'r')] or [f.read()] *)
  w_open_fault : option exn;         (* [open(path, 'w')] *)
  w_write_fault : option exn;        (* [f.write] *)
  w_pool_fault : option exn;         (* [multiprocessing.Pool] *)
  w_completion : list Chunk → list Chunk;  (* order of [imap_unordered] *)
  w_stdout : list string;            (* lines printed *)
  w_closed : list R;                 (* reader handles released *)
  w_threads : list Thread            (* supervisor threads running *)
}.

Definition St : Type := SystemdSource * World.

(** *** Field updates *)

Definition set_journal (j : option R) (s : SystemdSource) :=
  mkSource (cpu_count s) j (cursor s) (time_period s)
    (custom_start_time s) (history_queue s) (history_done s).
Definition set_cursor (c : option string) (s : SystemdSource) :=
  mkSource (cpu_count s) (journal s) c (time_period s)
    (custom_start_time s) (history_queue s) (history_done s).
Definition set_history_queue (q : list LogEvent) (s : SystemdSource) :=
  mkSource (cpu_count s) (journal s) (cursor s) (time_period s)
    (custom_start_time s) q (history_done s).
Definition set_history_done (b : bool) (s : SystemdSource) :=
  mkSource (cpu_count s) (journal s) (cursor s) (time_period s)
    (custom_start_time s) (history_queue s) b.

Definition set_cursor_dir (b : bool) (w : World) :=
  mkWorld (w_now w) (w_reader w) b (w_cursor_file w) (w_mkdir_fault w)
    (w_read_fault w) (w_open_fault w) (w_write_fault w) (w_pool_fault w)
    (w_completion w) (w_stdout w) (w_closed w) (w_threads w).
Definition set_cursor_file (f : option string) (w : World) :=
  mkWorld (w_now w) (w_reader w) (w_cursor_dir w) f (w_mkdir_fault w)
    (w_read_fault w) (w_open_fault w) (w_write_fault w) (w_pool_fault w)
    (w_completion w) (w_stdout w) (w_closed w) (w_threads w).
Definition set_read_fault (e : option exn) (w : World) :=
  mkWorld (w_now w) (w_reader w) (w_cursor_dir w) (w_cursor_file w)
    (w_mkdir_fault w) e (w_open_fault w) (w_write_fault w)
    (w_pool_fault w) (w_completion w) (w_stdout w) (w_closed w)
    (w_threads w).
Definition set_stdout (o : list string) (w : World) :=
  mkWorld (w_now w) (w_reader w) (w_cursor_dir w) (w_cursor_file w)
    (w_mkdir_fault w) (w_read_fault w) (w_open_fault w) (w_write_fault w)
    (w_pool_fault w) (w_completion w) o (w_closed w) (w_threads w).
Definition set_closed (c : list R) (w : World) :=
  mkWorld (w_now w) (w_reader w) (w_cursor_dir w) (w_cursor_file w)
    (w_mkdir_fault w) (w_read_fault w) (w_open_fault w) (w_write_fault w)
    (w_pool_fault w) (w_completion w) (w_stdout w) c (w_threads w).
Definition set_threads (t : list Thread) (w : World) :=
  mkWorld (w_now w) (w_reader w) (w_cursor_dir w) (w_cursor_file w)
    (w_mkdir_fault w) (w_read_fault w) (w_open_fault w) (w_write_fault w)
    (w_pool_fault w) (w_completion w) (w_stdout w) (w_closed w) t.

(** *** Lifting to the state of a method *)

Definition on_self {A} (m : M SystemdSource A) : M St A :=
  λ '(self, w), let '(r, self') := m self in (r, (self', w)).

Definition on_world {A} (m : M World A) : M St A :=
  λ '(self, w), let '(r, w') := m w in (r, (self, w')).

(** A call on [self.journal]; on [None] the attribute lookup fails. *)
Definition on_reader {A} (m : M R A) : M St A :=
  λ '(self, w),
    match journal self with
    | Some j => let '(r, j') := m j in (r, (set_journal (Some j') self, w))
    | None => (Raised AttributeError, (self, w))
    end.

Definition print (line : string) : M St unit :=
  on_world (modify (λ w, set_stdout (w_stdout w ++ [line]) w)).

(** *** [_get_scan_range]

    [reader] is the object passed in; the computation runs on it.
    [now] is [datetime.now()]. *)

Definition entry_time (e : option Entry) : option Z :=
  match e with Some e => e_REALTIME_TIMESTAMP e | None => None end.

Definition _get_scan_range (now : Z) (custom_start_time : option FloatTime)
    (time_period : TimePeriod) : M R (option Z * option Z) :=
  seek_tail ;;;
  last <~ get_previous ;;
  let abs_end_time :=
    match last with
    | Some last => e_REALTIME_TIMESTAMP last
    | None => Some now
    end in
  match time_period with
  | ALL =>
      seek_head ;;;
      first <~ get_next ;;
      ret (entry_time first, abs_end_time)
  | BOOT =>
      this_boot ;;;
      seek_head ;;;
      first <~ get_next ;;
      ret (entry_time first, abs_end_time)
  | NOW =>
      seek_tail ;;;
      last <~ get_previous ;;
      ret (entry_time last, abs_end_time)
  | CUSTOM =>
      match custom_start_time with
      | Some t =>
          if ft_truthy t then
            start_time <~ (λ reader, (ft_datetime t, reader)) ;;
            ret (Some start_time, abs_end_time)
          else ret (None, None)
      | None => ret (None, None)
      end
  end.

(** *** [_create_time_chunks]

    [total_duration <= 5] compares the float [total_seconds()] with 5.
    The float is the correctly rounded quotient of the duration in
    microseconds by [10**6]; rounding is monotone and 5 is a float, so
    the test is the one on the exact duration. *)

Fixpoint chunk_loop (cpu_count : Z) (end_time chunk_size : Z)
    (range : list Z) (current : Z) : list Chunk :=
  match range with
  | [] => []
  | i :: range =>
      let next_time :=
        if i =? cpu_count - 1 then end_time + 1 * SECOND
        else current + chunk_size in
      (current, next_time)
        :: chunk_loop cpu_count end_time chunk_size range next_time
  end.

(** [range(n)] *)
Definition range (n : Z) : list Z := Z.of_nat <$> seq 0 (Z.to_nat n).

Definition _create_time_chunks (cpu_count : Z) (start_time end_time : Z)
    : list Chunk :=
  let total_duration := end_time - start_time in
  if total_duration <=? 5 * SECOND then [(start_time, end_time)]
  else
    let chunk_size := chunk_width total_duration cpu_count in
    chunk_loop cpu_count end_time chunk_size (range cpu_count) start_time.

(** *** [process_log_chunk]

    Runs in a worker process, on a reader of its own ([opened] is what
    [systemd.journal.Reader()] gave it).  [os.nice(10)] is wrapped in a
    handler that ignores its failure and has no part in the result. *)

Fixpoint scan_loop (end_time : Z) (entries : list Entry) (err : option exn)
    (events : list LogEvent) : result (list LogEvent) :=
  match entries with
  | [] => match err with Some e => Raised e | None => Ok events end
  | entry :: entries =>
      let timestamp := e_REALTIME_TIMESTAMP entry in
      if match timestamp with
         | Some timestamp => timestamp >? end_time
         | None => false
         end
      then Ok events
      else
        match _entry_to_dict decode_utf8 entry with
        | Some ev_dict => scan_loop end_time entries err (events ++ [ev_dict])
        | None => scan_loop end_time entries err events
        end
  end.

Definition process_log_chunk (opened : result R) (args : Chunk)
    : result (list LogEvent) :=
  let '(start_time, end_time) := args in
  let events := [] in
  match opened with
  | Raised e => Raised e
  | Ok j =>
      match seek_realtime start_time j with
      | (Raised _, _) => Ok events
      | (Ok _, j) =>
          let '(entries, err, _) := iter_entries j in
          scan_loop end_time entries err events
      end
  end.

(** *** [_scan_history_background]

    The body of the supervisor thread, as the [Thread] it amounts to:
    the events it will put, one [put] at a time, and how its [try]
    block ends.  [results] are the workers' results in the order
    [imap_unordered] delivers them; a worker's exception is raised again
    in the supervisor when its result is reached.  [LogEvent( **ev_dict)]
    cannot fail on a dict made by [_entry_to_dict]. *)

Definition thread_done : Thread := {| pending := []; abort := None |}.

Fixpoint collect (results : list (result (list LogEvent))) : Thread :=
  match results with
  | [] => thread_done
  | Ok chunk_res :: results =>
      let t := collect results in
      {| pending := chunk_res ++ pending t; abort := abort t |}
  | Raised e :: _ => {| pending := []; abort := Some e |}
  end.

Definition _scan_history_background (self : SystemdSource) (w : World)
    (start_time end_time : option Z) : Thread :=
  match start_time, end_time with
  | Some start_time, Some end_time =>
      if start_time >=? end_time then thread_done
      else
        let chunk_args :=
          _create_time_chunks (cpu_count self) start_time end_time in
        match w_pool_fault w with
        | Some e => {| pending := []; abort := Some e |}
        | None =>
            collect (process_log_chunk (w_reader w)
                       <$> w_completion w chunk_args)
        end
  | _, _ => thread_done
  end.

(** *** The checkpoint file *)

(** [_load_cursor]: nothing guards the [open] and the [read]. *)
Definition _load_cursor : M World (option string) :=
  λ w,
    match w_cursor_file w with
    | Some text =>
        match w_read_fault w with
        | Some e => (Raised e, w)
        | None => (Ok (Some (strip text)), w)
        end
    | None => (Ok None, w)
    end.

(** [with open(self.cursor_path, 'w') as f: f.write(cursor)].  Opening
    for writing needs the directory and empties the file. *)
Definition write_cursor_file (cursor : string) : M World unit :=
  λ w,
    if negb (w_cursor_dir w) then (Raised OSError, w)
    else
      match w_open_fault w with
      | Some e => (Raised e, w)
      | None =>
          let w := set_cursor_file (Some EmptyString) w in
          match w_write_fault w with
          | Some e => (Raised e, w)
          | None => (Ok tt, set_cursor_file (Some cursor) w)
          end
      end.

(** [self.cursor_dir.mkdir(parents=True, exist_ok=True)] *)
Definition mkdir : M World unit :=
  λ w,
    match w_mkdir_fault w with
    | Some e => (Raised e, w)
    | None => (Ok tt, set_cursor_dir true w)
    end.

(** *** [_initialize_journal_position]

    [reader] is [self.journal] at the only call.  [resumed] stands for
    the [return] inside the first [try]. *)
Definition _initialize_journal_position : M St unit :=
  self <~ on_self get ;;
  resumed <~
    match cursor self with
    | Some c =>
        if str_truthy c then
          try_except (on_reader (seek_cursor c) ;;; ret true)
                     (λ _, ret false)
        else ret false
    | None => ret false
    end ;;
  if (resumed : bool) then ret tt
  else
    on_reader seek_tail ;;;
    try_except
      (last <~ on_reader get_previous ;;
       match last with
       | Some last => on_self (modify (set_cursor (e_CURSOR last)))
       | None => ret tt
       end)
      (λ _, ret tt).

(** *** [start]

    [start_position] is the body of [start] down to the final [if]; it
    returns [(scan_start, scan_end)].  [start_backfill] is that [if]. *)

Definition start_position : M St (option Z * option Z) :=
  on_world mkdir ;;;
  c <~ on_world _load_cursor ;;
  on_self (modify (set_cursor c)) ;;;
  j <~ on_world (λ w, (w_reader w, w)) ;;
  on_self (modify (set_journal (Some j))) ;;;
  st <~ get ;;
  let '(self, w) := st in
  scan <~ on_reader (_get_scan_range (w_now w) (custom_start_time self)
                       (time_period self)) ;;
  _initialize_journal_position ;;;
  ret scan.

(** [scan_start and scan_end and scan_start < scan_end] *)
Definition range_valid (scan : option Z * option Z) : bool :=
  match scan with
  | (Some scan_start, Some scan_end) => scan_start <? scan_end
  | _ => false
  end.

Definition start_backfill (scan : option Z * option Z) : M St unit :=
  if range_valid scan then
    st <~ get ;;
    let '(self, w) := st in
    let t := _scan_history_background self w scan.1 scan.2 in
    on_world (modify (λ w, set_threads (w_threads w ++ [t]) w))
  else
    on_self (modify (set_history_done true)).

Definition start : M St unit :=
  scan <~ start_position ;;
  start_backfill scan.

(** *** [poll] *)

Definition HISTORY_BATCH_SIZE : Z := 100.

(** The [while] loop.  Matching on the queue is [empty()] and
    [get_nowait()] at once: the queue has one consumer, so
    [queue.Empty] cannot be raised between the two. *)
Fixpoint drain_history (q : list LogEvent) (events : list LogEvent)
    (count : Z) : list LogEvent * list LogEvent :=
  match q with
  | [] => (q, events)
  | ev :: q' =>
      if count <? HISTORY_BATCH_SIZE
      then drain_history q' (events ++ [ev]) (count + 1)
      else (q, events)
  end.

(** The [for entry in self.journal] loop on the entries read. *)
Fixpoint tail_loop (entries : list Entry) (events : list LogEvent)
    : M SystemdSource (list LogEvent) :=
  match entries with
  | [] => ret events
  | entry :: entries =>
      match _entry_to_dict decode_utf8 entry with
      | Some ev_dict =>
          modify (set_cursor (e_CURSOR entry)) ;;;
          tail_loop entries (events ++ [ev_dict])
      | None => tail_loop entries events
      end
  end.

Definition poll : M St (list LogEvent) :=
  on_self (
    self <~ get ;;
    let '(q, events) := drain_history (history_queue self) [] 0 in
    modify (set_history_queue q) ;;;
    match journal self with
    | None => ret events
    | Some j =>
        let '(entries, err, j) := iter_entries j in
        modify (set_journal (Some j)) ;;;
        events <~ tail_loop entries events ;;
        match err with
        | Some e => raise e
        | None => ret events
        end
    end).

(** *** [stop] *)

Definition stop : M St unit :=
  self <~ on_self get ;;
  match cursor self with
  | Some c =>
      if str_truthy c then
        try_except (on_world (write_cursor_file c))
          (λ e, print ("Failed to save cursor: " +:+ exn_str e))
      else ret tt
  | None => ret tt
  end ;;;
  match journal self with
  | Some j =>
      on_world (modify (λ w, set_closed (w_closed w ++ [close j]) w)) ;;;
      on_self (modify (set_journal None))
  | None => ret tt
  end ;;;
  print "Systemd source stopped.".

(** *** The running system

    What can happen to a source and its world between two calls of the
    owner: the owner polls; the journal moves on, which changes what
    the live handle has to give; a supervisor thread puts its next
    event, which [put] allows only below [maxsize]; a supervisor thread
    that has nothing left leaves its [try] block, prints if it leaves
    by an exception, sets [history_done] and ends. *)

Definition thread_exit_print (t : Thread) (out : list string)
    : list string :=
  match abort t with
  | Some e => out ++ ["Background scan error: " +:+ exn_str e]
  | None => out
  end.

Inductive step : St → St → Prop :=
| step_poll st :
    step st (poll st).2
| step_journal self w j j' :
    journal self = Some j →
    step (self, w) (set_journal (Some j') self, w)
| step_put self w ts1 t ts2 ev rest :
    w_threads w = ts1 ++ t :: ts2 →
    pending t = ev :: rest →
    (length (history_queue self) < HISTORY_MAXSIZE)%nat →
    step (self, w)
         (set_history_queue (history_queue self ++ [ev]) self,
          set_threads (ts1 ++ {| pending := rest; abort := abort t |} :: ts2) w)
| step_exit self w ts1 t ts2 :
    w_threads w = ts1 ++ t :: ts2 →
    pending t = [] →
    step (self, w)
         (set_history_done true self,
          set_threads (ts1 ++ ts2)
            (set_stdout (thread_exit_print t (w_stdout w)) w)).

(** The events [poll] makes of the entries the live handle yields. *)
Definition live_events (entries : list Entry) : list LogEvent :=
  omap (_entry_to_dict decode_utf8) entries.

(** The entries among [entries] that translate to an event. *)
Definition translated (entries : list Entry) : list Entry :=
  filter (λ e, is_Some (_entry_to_dict decode_utf8 e)) entries.

(** What the live handle has to give at this moment: the entries an
    iteration yields and the read error, if any, that ends it.  Without a
    handle there is nothing. *)
Definition available (self : SystemdSource) : list Entry * option exn :=
  match journal self with
  | Some j => (iter_entries j).1
  | None => ([], None)
  end.

(** The cursor a poll leaves behind when it has read [entries] and the
    cursor was [c]: the token of the last entry that became an event. *)
Definition cursor_after (entries : list Entry) (c : option string)
    : option string :=
  match last (translated entries) with
  | Some e => e_CURSOR e
  | None => c
  end.

(** A computation that touches neither the queue, nor the done flag, nor
    the set of supervisor threads. *)
Definition keeps_backfill {A} (m : M St A) : Prop :=
  ∀ st r st', m st = (r, st') →
    history_queue st'.1 = history_queue st.1 ∧
    history_done st'.1 = history_done st.1 ∧
    w_threads st'.2 = w_threads st.2.

(** Nothing queued, nobody to queue anything, and the backfill done. *)
Definition backfill_over (st : St) : Prop :=
  history_queue st.1 = [] ∧ history_done st.1 = true ∧ w_threads st.2 = [].


(** The cursor left by a poll is the token of the last entry it read. *)
Definition cursor_is_last_consumed (st : St) : Prop :=
  ∀ e, last (available st.1).1 = Some e → cursor (poll st).2.1 = e_CURSOR e.

End Source.

Arguments SystemdSource R : clear implicits.
Arguments World R : clear implicits.
Arguments St R : clear implicits.
Arguments keeps_backfill R {A} m.

(** ** Vocabulary of the worker's scan and of what a method keeps *)

(** [timestamp and timestamp > end_time], the test that ends the scan of
    a chunk. *)
Definition past_end (end_time : Z) (entry : Entry) : bool :=
  match e_REALTIME_TIMESTAMP entry with
  | Some timestamp => timestamp >? end_time
  | None => false
  end.

(** The entries before the first one that is past the end. *)
Fixpoint up_to_end (end_time : Z) (entries : list Entry) : list Entry :=
  match entries with
  | [] => []
  | entry :: entries =>
      if past_end end_time entry then []
      else entry :: up_to_end end_time entries
  end.

(** A computation under which [P] of the state, once true, stays true,
    whether it returns or raises. *)
Definition maintains {S A} (P : S → Prop) (m : M S A) : Prop :=
  ∀ s r s', P s → m s = (r, s') → P s'.

(** A property of the state that is not lost when the handle is
    replaced by a handle, nor when the cursor is changed. *)
Definition handle_blind {R} (P : St R → Prop) : Prop :=
  (∀ self w j, P (self, w) → P (set_journal (Some j) self, w)) ∧
  (∀ self w c, P (self, w) → P (set_cursor c self, w)).

(** A computation after whose return [P] holds of the state. *)
Definition ensures {S A} (P : S → Prop) (m : M S A) : Prop :=
  ∀ s a s', m s = (Ok a, s') → P s'.

(** ** A reader over a list

    An instance of the capability on a finite journal, to run the
    methods on examples.  The head is before entry [lr_pos]
    ([lr_on = false]) or on it ([lr_on = true]); a seek leaves it before an
    entry, a move puts it on one.  [lr_seek_fault] makes the seeks by
    cursor and by time raise, [lr_read_fault] ends an iteration by a read
    error. *)

Record ListReader := mkListReader {
  lr_entries : list Entry;
  lr_pos : nat;
  lr_on : bool;
  lr_seek_fault : option exn;
  lr_read_fault : option exn;
  lr_closed : bool
}.

Definition lr_move (pos : nat) (on : bool) (r : ListReader) : ListReader :=
  mkListReader (lr_entries r) pos on (lr_seek_fault r) (lr_read_fault r)
    (lr_closed r).

Definition lr_seek (pos : nat) : M ListReader unit :=
  λ r, match lr_seek_fault r with
       | Some e => (Raised e, r)
       | None => (Ok tt, lr_move pos false r)
       end.

(** Index of the first entry that satisfies [p], the length if none. *)
Fixpoint find_index {A} (p : A → bool) (l : list A) : nat :=
  match l with
  | [] => 0
  | x :: l => if p x then 0 else S (find_index p l)
  end.

Definition lr_next_index (r : ListReader) : nat :=
  if lr_on r then S (lr_pos r) else lr_pos r.

Definition lr_get_next : M ListReader (option Entry) :=
  λ r, match lr_entries r !! lr_next_index r with
       | Some e => (Ok (Some e), lr_move (lr_next_index r) true r)
       | None => (Ok None, r)
       end.

Definition lr_get_previous : M ListReader (option Entry) :=
  λ r, match lr_pos r with
       | O => (Ok None, r)
       | S k => match lr_entries r !! k with
                | Some e => (Ok (Some e), lr_move k true r)
                | None => (Ok None, r)
                end
       end.

Definition lr_iter (r : ListReader) : list Entry * option exn * ListReader :=
  let rest := drop (lr_next_index r) (lr_entries r) in
  (rest, lr_read_fault r,
   match rest with
   | [] => r
   | _ => lr_move (pred (length (lr_entries r))) true r
   end).

#[global] Instance ListReader_JournalReader : JournalReader ListReader := {
  seek_head := λ r, (Ok tt, lr_move 0 false r);
  seek_tail := λ r, (Ok tt, lr_move (length (lr_entries r)) false r);
  seek_cursor c :=
    λ r, lr_seek (find_index (λ e, bool_decide (e_CURSOR e = Some c))
                    (lr_entries r)) r;
  seek_realtime t :=
    λ r, lr_seek (find_index
                    (λ e, match e_REALTIME_TIMESTAMP e with
                          | Some u => t <=? u
                          | None => false
                          end) (lr_entries r)) r;
  get_next := lr_get_next;
  get_previous := lr_get_previous;
  this_boot := λ r, (Ok tt, r);
  iter_entries := lr_iter;
  close := λ r, mkListReader (lr_entries r) (lr_pos r) (lr_on r)
                  (lr_seek_fault r) (lr_read_fault r) true
}.

(** ** The aggregator ([data/sources_interface.py])

    [Sources] keeps the list [self.sources].  [SystemdSource] is the
    one implementation of [LogSource] in these files; the other four
    names import modules that are not among them. *)

Section Aggregator.

Context {R : Type} `{!JournalReader R}.
Variable decode_utf8 : list Byte.byte → string.
Variable chunk_width : Z → Z → Z.

Definition Sources : Type := list (SystemdSource R).

(** The object and the world it acts on. *)
Definition SourcesSt : Type := Sources * World R.

Definition OTHER_SOURCES : list string :=
  ["audio"; "kernel"; "network"; "sandbox"].

(** [Sources.__init__].  [None] when the list asks for a source that is
    not in these files. *)
Definition Sources__init__ (sources : list string) : option Sources :=
  if existsb (λ name, bool_decide (name ∈ sources)) OTHER_SOURCES then None
  else
    Some (if bool_decide ("systemd" ∈ sources) then [__init__ 8 NOW None]
          else []).

(** [for source in self.sources: source.call()], with the results in
    order.  Each source keeps what its call did to it; when a call
    raises, the sources after it are not called. *)
Fixpoint for_sources {A} (call : M (St R) A) (sources : Sources)
    (w : World R) : result (list A) * SourcesSt :=
  match sources with
  | [] => (Ok [], ([], w))
  | source :: sources =>
      match call (source, w) with
      | (Ok a, (source, w)) =>
          match for_sources call sources w with
          | (Ok rest, (sources, w)) => (Ok (a :: rest), (source :: sources, w))
          | (Raised e, (sources, w)) => (Raised e, (source :: sources, w))
          end
      | (Raised e, (source, w)) => (Raised e, (source :: sources, w))
      end
  end.

Definition Sources_start : M SourcesSt unit :=
  λ '(sources, w),
    match for_sources (start decode_utf8 chunk_width) sources w with
    | (Ok _, st) => (Ok tt, st)
    | (Raised e, st) => (Raised e, st)
    end.

Definition Sources_stop : M SourcesSt unit :=
  λ '(sources, w),
    match for_sources stop sources w with
    | (Ok _, st) => (Ok tt, st)
    | (Raised e, st) => (Raised e, st)
    end.

(** [events.extend(source.poll())] for each source. *)
Definition Sources_poll : M SourcesSt (list LogEvent) :=
  λ '(sources, w),
    match for_sources (poll decode_utf8) sources w with
    | (Ok results, st) => (Ok (concat results), st)
    | (Raised e, st) => (Raised e, st)
    end.

(** ** The watcher ([core/log_watcher.py]) *)

(** [os.cpu_count() or 1] *)
Definition Watcher_cpu_count (os_cpu_count : option Z) : Z :=
  match os_cpu_count with
  | Some n => if n =? 0 then 1 else n
  | None => 1
  end.

(** [ev.severity.name] *)
Definition Severity_name (s : Severity) : string :=
  match s with
  | DEBUG => "DEBUG" | INFO => "INFO" | WARNING => "WARNING"
  | ERROR => "ERROR" | CRITICAL => "CRITICAL"
  end.

(** [s[:n]] *)
Fixpoint str_take (n : nat) (s : string) : string :=
  match n, s with
  | S n, String a s => String a (str_take n s)
  | _, _ => EmptyString
  end.

(** [str(ev.timestamp)], the text of a datetime or of [None]: a
    primitive of the runtime. *)
Variable str_timestamp : option Z → string.

(** What happens to the sources and the world while the owner sleeps:
    the journal moves on, the supervisors put events. *)
Variable asleep : SourcesSt → SourcesSt.

Definition Watcher_print (line : string) : M SourcesSt unit :=
  λ '(sources, w), (Ok tt, (sources, set_stdout (w_stdout w ++ [line]) w)).

Definition event_line (ev : LogEvent) : string :=
  "[" +:+ Severity_name (severity ev) +:+ "] "
  +:+ str_timestamp (timestamp ev) +:+ ": "
  +:+ str_take 100 (raw_message ev).

Fixpoint print_lines (lines : list string) : M SourcesSt unit :=
  match lines with
  | [] => ret tt
  | line :: lines => Watcher_print line ;;; print_lines lines
  end.

(** The body of the [while] loop. *)
Definition run_iteration : M SourcesSt unit :=
  events <~ Sources_poll ;;
  match events with
  | [] => ret tt
  | _ =>
      Watcher_print ("Received " +:+ pretty (length events)
                     +:+ " new events.") ;;;
      print_lines (event_line <$> drop (length events - 5) events)
  end ;;;
  modify asleep.

(** [while self.running:], [running] being true and never assigned: the
    loop ends only by an exception.  [iterations] is the number of rounds
    made when the process is interrupted in its sleep; then the loop
    returns here, and raises nothing an [except Exception] would
    catch. *)
Fixpoint run_loop (iterations : nat) : M SourcesSt unit :=
  match iterations with
  | O => ret tt
  | S iterations => run_iteration ;;; run_loop iterations
  end.

(** How [run] is left: its [try] statement went through its handler and
    [run] returned, or the interrupt goes on to the caller once the
    [finally] clause has run. *)
Inductive run_end := Returned | Interrupted.

(** [Watcher.run], on the world only: [data] is made in it. *)
Definition Watcher_run (os_cpu_count : option Z) (iterations : nat)
    (w : World R) : result run_end * SourcesSt :=
  let w :=
    set_stdout (w_stdout w ++
      ["Starting log watcher on " +:+ pretty (Watcher_cpu_count os_cpu_count)
       +:+ " cores..."]) w in
  let data : Sources := default [] (Sources__init__ ["systemd"]) in
  match (Sources_start ;;; run_loop iterations) (data, w) with
  | (Ok _, st) =>
      match Sources_stop st with
      | (Ok _, st) => (Ok Interrupted, st)
      | (Raised e, st) => (Raised e, st)
      end
  | (Raised e, st) =>
      match (Watcher_print ("Error: " +:+ exn_str e) ;;; Sources_stop) st with
      | (Ok _, st) => (Ok Returned, st)
      | (Raised e, st) => (Raised e, st)
      end
  end.

End Aggregator.

(** ** A reader that fails

    An instance of the capability on a journal that cannot be read at
    all: every operation raises [OSError]. *)

Inductive DeadReader := Dead.

#[global] Instance DeadReader_JournalReader : JournalReader DeadReader := {
  seek_head := raise OSError;
  seek_tail := raise OSError;
  seek_cursor _ := raise OSError;
  seek_realtime _ := raise OSError;
  get_next := raise OSError;
  get_previous := raise OSError;
  this_boot := raise OSError;
  iter_entries := λ r, ([], Some OSError, r);
  close := λ r, r
}.

(** ** A small journal

    Two entries, the second without a message; a handle placed before
    them; a source that tails through the handle. *)

Module Ex.

Definition decode (b : list Byte.byte) : string :=
  Stdlib.Strings.String.string_of_list_byte b.

Definition width (total_duration n : Z) : Z := total_duration / n.

Definition entry_a : Entry :=
  {| e_MESSAGE := Some (MsgStr "link up");
     e_PRIORITY := Some 6;
     e_REALTIME_TIMESTAMP := Some (10 * SECOND);
     e_SYSLOG_IDENTIFIER := Some "kernel";
     e_SYSTEMD_UNIT := None;
     e_CURSOR := Some "s=1;i=1";
     e_extra := ∅ |}.

Definition entry_blank : Entry :=
  {| e_MESSAGE := None;
     e_PRIORITY := Some 6;
     e_REALTIME_TIMESTAMP := Some (20 * SECOND);
     e_SYSLOG_IDENTIFIER := None;
     e_SYSTEMD_UNIT := None;
     e_CURSOR := Some "s=1;i=2";
     e_extra := ∅ |}.

Definition reader : ListReader :=
  {| lr_entries := [entry_a; entry_blank];
     lr_pos := 0;
     lr_on := false;
     lr_seek_fault := None;
     lr_read_fault := None;
     lr_closed := false |}.

(** The same journal through a handle whose seeks fail. *)
Definition reader_no_seek : ListReader :=
  {| lr_entries := [entry_a; entry_blank];
     lr_pos := 0;
     lr_on := false;
     lr_seek_fault := Some PermissionError;
     lr_read_fault := None;
     lr_closed := false |}.

Definition world : World ListReader :=
  {| w_now := 30 * SECOND;
     w_reader := Ok reader;
     w_cursor_dir := true;
     w_cursor_file := None;
     w_mkdir_fault := None;
     w_read_fault := None;
     w_open_fault := None;
     w_write_fault := None;
     w_pool_fault := None;
     w_completion := λ chunks, chunks;
     w_stdout := [];
     w_closed := [];
     w_threads := [] |}.

(** The same world with a checkpoint that cannot be read. *)
Definition world_unreadable : World ListReader :=
  set_read_fault (Some PermissionError)
    (set_cursor_file (Some "s=1;i=1") world).

Definition event_old : LogEvent :=
  {| source := "systemd";
     severity := ERROR;
     timestamp := Some (1 * SECOND);
     subsystem := "unknown";
     raw_message := "boot";
     structured_data := ∅ |}.

(** A started source: one backfill event queued, the handle open. *)
Definition tailing : SystemdSource ListReader :=
  {| cpu_count := 4;
     journal := Some reader;
     cursor := None;
     time_period := NOW;
     custom_start_time := None;
     history_queue := [event_old];
     history_done := true |}.

(** The same source once it has a cursor, and once it has no handle. *)
Definition resumed : SystemdSource ListReader :=
  set_cursor (Some "s=1;i=1") tailing.

Definition stopped : SystemdSource ListReader :=
  set_journal None tailing.

(** The source the watcher builds, before [start]. *)
Definition fresh : SystemdSource ListReader := __init__ 8 NOW None.

(** The handle when an iteration of it ends by a read error. *)
Definition reader_read_fault : ListReader :=
  {| lr_entries := [entry_a; entry_blank];
     lr_pos := 0;
     lr_on := false;
     lr_seek_fault := None;
     lr_read_fault := Some OSError;
     lr_closed := false |}.

Definition tailing_read_fault : SystemdSource ListReader :=
  set_journal (Some reader_read_fault) tailing.

(** A source with a cursor on a handle whose seeks fail. *)
Definition resumed_no_seek : SystemdSource ListReader :=
  set_journal (Some reader_no_seek) resumed.

(** A source on the journal that cannot be read. *)
Definition on_dead_journal : SystemdSource DeadReader :=
  {| cpu_count := 1;
     journal := Some Dead;
     cursor := None;
     time_period := ALL;
     custom_start_time := None;
     history_queue := [];
     history_done := false |}.

Definition world_dead : World DeadReader :=
  {| w_now := 30 * SECOND;
     w_reader := Ok Dead;
     w_cursor_dir := true;
     w_cursor_file := None;
     w_mkdir_fault := None;
     w_read_fault := None;
     w_open_fault := None;
     w_write_fault := None;
     w_pool_fault := None;
     w_completion := λ chunks, chunks;
     w_stdout := [];
     w_closed := [];
     w_threads := [] |}.

(** The source of the watcher with the whole journal to scan. *)
Definition fresh_all : SystemdSource ListReader := __init__ 2 ALL None.


Definition show_time (t : option Z) : string :=
  match t with Some t => pretty t | None => "None" end.

Definition idle (st : SourcesSt (R:=ListReader)) : SourcesSt (R:=ListReader) :=
  st.

End Ex.

(** ** Vocabulary of the properties *)

(** Each chunk ends where the next one starts. *)
Definition contiguous (cs : list Chunk) : Prop :=
  ∀ (i : nat) (a b : Chunk),
    cs !! i = Some a → cs !! S i = Some b → a.2 = b.1.

(** Every instant of [[start_time, end_time]] lies in a chunk, taken
    closed at its start and open at its end. *)
Definition covers (cs : list Chunk) (start_time end_time : Z) : Prop :=
  ∀ t, start_time ≤ t ≤ end_time → ∃ c, c ∈ cs ∧ c.1 ≤ t < c.2.

(** ** Properties *)

(** *** The priority mapping *)

(** C4: the mapping from priority codes to severities is a function
    defined on every code: 0 to 3 give ERROR, 4 gives WARNING, 5 and 6
    give INFO, 7 gives DEBUG, and an absent priority gives INFO. *)
Theorem map_priority_to_severity_total :
  (∀ p, 0 ≤ p ≤ 3 → _map_priority_to_severity (Some p) = ERROR) ∧
  _map_priority_to_severity (Some 4) = WARNING ∧
  (∀ p, 5 ≤ p ≤ 6 → _map_priority_to_severity (Some p) = INFO) ∧
  _map_priority_to_severity (Some 7) = DEBUG ∧
  _map_priority_to_severity None = INFO.
Proof.
  repeat split; try reflexivity; intros p Hp; unfold _map_priority_to_severity.
  - case_eq (p <=? 3); [reflexivity | intros H%Z.leb_gt; lia].
  - case_eq (p <=? 3); [intros H%Z.leb_le; lia | intros _].
    case_eq (p =? 4); [intros H%Z.eqb_eq; lia | intros _].
    case_eq (p <=? 6); [reflexivity | intros H%Z.leb_gt; lia].
Qed.

Lemma map_priority_to_severity_total_witness :
  _map_priority_to_severity (Some 2) = ERROR ∧
  _map_priority_to_severity (Some 6) = INFO.
Proof.
  destruct map_priority_to_severity_total as (Herr & _ & Hinfo & _).
  split; [apply Herr; lia | apply Hinfo; lia].
Defined.

(** *** The chunk planner *)

Section Planner.

Variable chunk_width : Z → Z → Z.
Variables (cpu_count end_time chunk_size : Z).

Local Abbreviation loop := (chunk_loop cpu_count end_time chunk_size).

Lemma chunk_loop_length range current :
  length (loop range current) = length range.
Proof.
  revert current; induction range as [|i range IH]; intros current;
    simpl; [reflexivity | by rewrite IH].
Qed.

Lemma chunk_loop_head i range current :
  ∃ b, head (loop (i :: range) current) = Some (current, b).
Proof. simpl. eauto. Qed.

Lemma chunk_loop_contiguous range current :
  contiguous (loop range current).
Proof.
  revert current; induction range as [|i range IH]; intros current k a b.
  - by destruct k.
  - destruct k as [|k]; simpl.
    + intros [= <-]. destruct range as [|i' range]; simpl.
      * done.
      * by intros [= <-].
    + apply IH.
Qed.

Lemma chunk_loop_last range current :
  last range = Some (cpu_count - 1) →
  ∃ a, last (loop range current) = Some (a, end_time + 1 * SECOND).
Proof.
  revert current; induction range as [|i range IH]; intros current;
    [discriminate |].
  destruct range as [|i' range].
  - simpl. intros [= ->]. rewrite Z.eqb_refl. eauto.
  - intros Hlast.
    set (next_time := if i =? cpu_count - 1 then end_time + 1 * SECOND
                      else current + chunk_size).
    destruct (IH next_time Hlast) as [a Ha]. exists a. exact Ha.
Qed.

Lemma chunk_loop_covers range current t :
  last range = Some (cpu_count - 1) →
  current ≤ t < end_time + 1 * SECOND →
  ∃ c, c ∈ loop range current ∧ c.1 ≤ t < c.2.
Proof.
  revert current; induction range as [|i range IH]; intros current;
    [discriminate |].
  destruct range as [|i' range].
  - simpl. intros [= ->] Ht. rewrite Z.eqb_refl.
    exists (current, end_time + 1 * SECOND). split; [left | exact Ht].
  - intros Hlast Ht.
    change (loop (i :: i' :: range) current) with
      (let next_time := if i =? cpu_count - 1 then end_time + 1 * SECOND
                        else current + chunk_size in
       (current, next_time) :: loop (i' :: range) next_time).
    cbv zeta.
    set (next_time := if i =? cpu_count - 1 then _ else _).
    destruct (Z_lt_le_dec t next_time) as [Hlt | Hge].
    + exists (current, next_time). split; [left | simpl; lia].
    + destruct (IH next_time Hlast) as (c & Hc & Hin); [lia |].
      exists c. split; [by right | exact Hin].
Qed.

End Planner.

Lemma range_length (n : Z) : length (range n) = Z.to_nat n.
Proof. unfold range. by rewrite length_fmap, length_seq. Qed.

Lemma range_last (n : Z) : 1 ≤ n → last (range n) = Some (n - 1).
Proof.
  intros Hn. unfold range.
  replace (Z.to_nat n) with (S (Z.to_nat (n - 1))) by lia.
  rewrite seq_S, fmap_app.
  change (Z.of_nat <$> [(0 + Z.to_nat (n - 1))%nat])
    with [Z.of_nat (0 + Z.to_nat (n - 1))].
  rewrite last_snoc. f_equal. lia.
Qed.

(** C3: for [start_time < end_time] and a parallelism of at least one, a
    range of at most five seconds is planned as the one chunk
    [(start_time, end_time)]; a longer one as exactly [cpu_count] chunks,
    contiguous, the first starting at [start_time], the last ending one
    second past [end_time], hence after it, and together covering
    [[start_time, end_time]]. *)
Theorem create_time_chunks_plan (chunk_width : Z → Z → Z)
    (cpu_count start_time end_time : Z) :
  start_time < end_time →
  1 ≤ cpu_count →
  let chunks :=
    _create_time_chunks chunk_width cpu_count start_time end_time in
  (end_time - start_time ≤ 5 * SECOND → chunks = [(start_time, end_time)]) ∧
  (5 * SECOND < end_time - start_time →
     length chunks = Z.to_nat cpu_count ∧
     contiguous chunks ∧
     (∃ b, head chunks = Some (start_time, b)) ∧
     (∃ a, last chunks = Some (a, end_time + 1 * SECOND)) ∧
     end_time < end_time + 1 * SECOND ∧
     covers chunks start_time end_time).
Proof.
  intros Hlt Hn chunks. subst chunks. unfold _create_time_chunks. split.
  - intros Hshort. case_eq (end_time - start_time <=? 5 * SECOND);
      [reflexivity | intros H%Z.leb_gt; lia].
  - intros Hlong. case_eq (end_time - start_time <=? 5 * SECOND);
      [intros H%Z.leb_le; lia | intros _].
    pose proof (range_last cpu_count Hn) as Hlast.
    repeat split.
    + by rewrite chunk_loop_length, range_length.
    + apply chunk_loop_contiguous.
    + destruct (range cpu_count) as [|i r] eqn:Hr; [discriminate |].
      apply chunk_loop_head.
    + by apply chunk_loop_last.
    + unfold SECOND. lia.
    + intros t Ht. apply chunk_loop_covers; [exact Hlast |].
      unfold SECOND. lia.
Qed.

(** *** Polling *)

Section Poll.

Context {R : Type} `{!JournalReader R}.
Variable decode_utf8 : list Byte.byte → string.


Lemma drain_history_spec (q events : list LogEvent) (count : Z) :
  0 ≤ count ≤ HISTORY_BATCH_SIZE →
  drain_history q events count =
  (drop (Z.to_nat (HISTORY_BATCH_SIZE - count)) q,
   events ++ take (Z.to_nat (HISTORY_BATCH_SIZE - count)) q).
Proof.
  unfold HISTORY_BATCH_SIZE. revert events count.
  induction q as [|ev q IH]; intros events count Hc; simpl.
  - by rewrite drop_nil, take_nil, app_nil_r.
  - unfold HISTORY_BATCH_SIZE. destruct (Z.ltb_spec count 100) as [Hlt | Hge].
    + rewrite IH by lia.
      replace (Z.to_nat (100 - count)) with (S (Z.to_nat (100 - (count + 1))))
        by lia.
      simpl. by rewrite <- app_assoc.
    + replace (Z.to_nat (100 - count)) with O by lia.
      simpl. by rewrite app_nil_r.
Qed.

Lemma set_cursor_same (self : SystemdSource R) :
  set_cursor (cursor self) self = self.
Proof. by destruct self. Qed.

Lemma tail_loop_spec (entries : list Entry) (events : list LogEvent)
    (self : SystemdSource R) :
  tail_loop decode_utf8 entries events self =
  (Ok (events ++ live_events decode_utf8 entries),
   set_cursor (cursor_after decode_utf8 entries (cursor self)) self).
Proof.
  revert events self. induction entries as [|entry entries IH];
    intros events self.
  - simpl. unfold ret, cursor_after. simpl.
    by rewrite app_nil_r, set_cursor_same.
  - simpl. unfold cursor_after, translated.
    destruct (_entry_to_dict decode_utf8 entry) as [ev|] eqn:Hev.
    + rewrite filter_cons_True by (rewrite Hev; eauto).
      unfold bind, modify. rewrite IH, <- app_assoc. simpl.
      unfold cursor_after. rewrite last_cons.
      by destruct (last _).
    + rewrite filter_cons_False by (rewrite Hev; by intros [? ?]).
      by rewrite IH.
Qed.

(** What [poll] returns and leaves behind, in every state. *)
Lemma poll_spec (self : SystemdSource R) (w : World R) :
  let q := history_queue self in
  poll decode_utf8 (self, w) =
  match journal self with
  | None => (Ok (take 100 q), (set_history_queue (drop 100 q) self, w))
  | Some j =>
      let '(entries, err, j') := iter_entries j in
      (match err with
       | Some e => Raised e
       | None => Ok (take 100 q ++ live_events decode_utf8 entries)
       end,
       (set_cursor (cursor_after decode_utf8 entries (cursor self))
          (set_journal (Some j') (set_history_queue (drop 100 q) self)), w))
  end.
Proof.
  intros q. unfold poll, on_self, bind, get.
  rewrite (drain_history_spec (history_queue self) [] 0)
    by (unfold HISTORY_BATCH_SIZE; lia).
  change (Z.to_nat (HISTORY_BATCH_SIZE - 0)) with 100%nat. simpl.
  destruct (journal self) as [j|] eqn:Hj; [| reflexivity].
  destruct (iter_entries j) as [[entries err] j'] eqn:Hit. simpl.
  rewrite tail_loop_spec. simpl.
  by destruct err.
Qed.


(** C9: without a live handle ([journal] is [None], as before [start]
    and after [stop]) [poll] returns the events it drained from the
    queue, possibly none, and does not raise. *)
Theorem poll_without_reader (self : SystemdSource R) (w : World R) :
  journal self = None →
  poll decode_utf8 (self, w) =
  (Ok (take 100 (history_queue self)),
   (set_history_queue (drop 100 (history_queue self)) self, w)).
Proof.
  intros Hj. pose proof (poll_spec self w) as Hp. cbv zeta in Hp.
  by rewrite Hj in Hp.
Qed.

(** C1, as the code has it: after a poll that read [entries] from the
    live handle, the stored cursor is the token of the last of them that
    was translated to an event; an entry whose translation yields nothing
    leaves the cursor where it was, and so does a poll none of whose
    entries yields an event. *)
Theorem poll_cursor_follows_last_event (self : SystemdSource R)
    (w : World R) (j j' : R) (entries : list Entry) (err : option exn) :
  journal self = Some j →
  iter_entries j = (entries, err, j') →
  cursor (poll decode_utf8 (self, w)).2.1 =
  match last (translated decode_utf8 entries) with
  | Some e => e_CURSOR e
  | None => cursor self
  end.
Proof.
  intros Hj Hit. pose proof (poll_spec self w) as Hp. cbv zeta in Hp.
  rewrite Hj, Hit in Hp. rewrite Hp. reflexivity.
Qed.

End Poll.

(** *** Stopping *)

Section Stop.

Context {R : Type} `{!JournalReader R}.

Lemma write_cursor_file_frame (c : string) (w w1 : World R)
    (r : result unit) :
  write_cursor_file c w = (r, w1) →
  w_closed w1 = w_closed w ∧ w_stdout w1 = w_stdout w ∧
  (r = Ok tt → w_cursor_file w1 = Some c).
Proof.
  unfold write_cursor_file.
  destruct (w_cursor_dir w); simpl;
    [| intros [= <- <-]; repeat split; discriminate].
  destruct (w_open_fault w); simpl;
    [intros [= <- <-]; repeat split; discriminate |].
  destruct (w_write_fault w); simpl; intros [= <- <-]; repeat split;
    discriminate.
Qed.

(** C8: [stop] returns normally in every state.  With a cursor set it
    writes the cursor to the checkpoint file: when the write goes through
    the file holds the cursor, when it fails the failure is printed and
    not raised.  With or without a cursor, [stop] then closes the live
    handle and forgets it. *)
Theorem stop_persists_then_releases (self : SystemdSource R) (w : World R) :
  ∃ w',
    stop (self, w) = (Ok tt, (set_journal None self, w')) ∧
    (∀ c, cursor self = Some c → str_truthy c = true →
       match (write_cursor_file c w).1 with
       | Ok _ => w_cursor_file w' = Some c
       | Raised e => "Failed to save cursor: " +:+ exn_str e ∈ w_stdout w'
       end) ∧
    (∀ j, journal self = Some j → w_closed w' = w_closed w ++ [close j]) ∧
    (journal self = None → w_closed w' = w_closed w).
Proof.
  unfold stop, bind, on_self, get, try_except, on_world, print, modify, ret.
  destruct self as [n jr cur tp cst q dn]; simpl.
  destruct cur as [c|]; [destruct (str_truthy c) eqn:Hc |].
  - destruct (write_cursor_file c w) as [[[]|e] w1] eqn:Hw;
      destruct (write_cursor_file_frame c w w1 _ Hw) as (Hcl & Hout & Hfile);
      destruct jr as [j|]; simpl; eexists; (split; [reflexivity |]);
      repeat split; simpl; try discriminate; try congruence.
    + intros c' [= <-] _. rewrite Hw. by apply Hfile.
    + intros c' [= <-] _. rewrite Hw. by apply Hfile.
    + intros c' [= <-] _. rewrite Hw. simpl.
      apply elem_of_app. left. apply elem_of_app. right. by left.
    + intros c' [= <-] _. rewrite Hw. simpl.
      apply elem_of_app. left. apply elem_of_app. right. by left.
  - destruct jr as [j|]; simpl; eexists; (split; [reflexivity |]);
      repeat split; simpl; try discriminate; try congruence.
  - destruct jr as [j|]; simpl; eexists; (split; [reflexivity |]);
      repeat split; simpl; try discriminate; try congruence.
Qed.

(** C10: when [stop] is called with no cursor ([cursor] is [None]), the
    checkpoint file is as it was: not created, not overwritten. *)
Theorem stop_without_cursor_keeps_file (self : SystemdSource R)
    (w : World R) :
  cursor self = None →
  w_cursor_file (stop (self, w)).2.2 = w_cursor_file w.
Proof.
  intros Hc.
  unfold stop, bind, on_self, get, try_except, on_world, print, modify, ret.
  destruct self as [n jr cur tp cst q dn]; simpl in *. subst cur.
  by destruct jr.
Qed.

Lemma stop_releases (self : SystemdSource R) (w : World R) :
  (stop (self, w)).1 = Ok tt ∧ (stop (self, w)).2.1 = set_journal None self.
Proof.
  unfold stop, bind, on_self, get, try_except, on_world, print, modify, ret.
  destruct self as [n jr cur tp cst q dn]; simpl.
  destruct cur as [c|]; [destruct (str_truthy c) |];
    try destruct (write_cursor_file c w) as [[[]|e] w1];
    by destruct jr.
Qed.

(** The two moments at which a source has no handle. *)
Lemma poll_before_start (decode_utf8 : list Byte.byte → string)
    (core_allocation : Z) (time_period : TimePeriod)
    (custom_start_time : option FloatTime) (w : World R) :
  poll decode_utf8 (__init__ core_allocation time_period custom_start_time, w)
  = (Ok [], (__init__ core_allocation time_period custom_start_time, w)).
Proof. reflexivity. Qed.

Lemma poll_after_stop (decode_utf8 : list Byte.byte → string)
    (self : SystemdSource R) (w : World R) :
  (poll decode_utf8 (stop (self, w)).2).1
  = Ok (take 100 (history_queue self)).
Proof.
  destruct (stop_releases self w) as [_ Hself].
  destruct (stop (self, w)) as [r [self' w']]. cbn [fst snd] in *.
  subst self'. by rewrite poll_spec.
Qed.

End Stop.

(** *** The backfill workers *)

Section Backfill.

Context {R : Type} `{!JournalReader R}.
Variable decode_utf8 : list Byte.byte → string.


Lemma collect_empty_result (results : list (result (list LogEvent))) :
  collect (Ok [] :: results) = collect results.
Proof. simpl. by destruct (collect results). Qed.

Lemma collect_skip (before after : list (result (list LogEvent))) :
  collect (before ++ Ok [] :: after) = collect (before ++ after).
Proof.
  induction before as [|[chunk_res | e] before IH]; simpl.
  - by destruct (collect after).
  - by rewrite IH.
  - reflexivity.
Qed.

(** C7: a chunk task whose seek to the start of its chunk fails returns
    the empty list and raises nothing; wherever that task's result comes
    in the order of completion, the supervisor goes on as if the chunk
    were not there: same events, same ending. *)
Theorem chunk_seek_failure_is_absorbed (j j' : R) (c : Chunk) (e : exn)
    (before after : list Chunk) :
  seek_realtime c.1 j = (Raised e, j') →
  process_log_chunk decode_utf8 (Ok j) c = Ok [] ∧
  collect (process_log_chunk decode_utf8 (Ok j) <$> (before ++ c :: after)) =
  collect (process_log_chunk decode_utf8 (Ok j) <$> (before ++ after)).
Proof.
  intros Hseek.
  assert (Hc : process_log_chunk decode_utf8 (Ok j) c = Ok []).
  { unfold process_log_chunk. destruct c as [start_time end_time].
    simpl in Hseek. by rewrite Hseek. }
  split; [exact Hc |].
  rewrite !fmap_app, fmap_cons, Hc. apply collect_skip.
Qed.

(** When the seek fails in every chunk task, the run of the supervisor
    is the one that puts nothing and ends without an exception. *)
Lemma collect_all_seeks_fail (j : R) (chunks : list Chunk) :
  (∀ c, c ∈ chunks → ∃ e j', seek_realtime c.1 j = (Raised e, j')) →
  collect (process_log_chunk decode_utf8 (Ok j) <$> chunks) = thread_done.
Proof.
  induction chunks as [|c chunks IH]; intros Hall; [reflexivity |].
  destruct (Hall c) as (e & j' & Hseek); [left |].
  rewrite fmap_cons. unfold process_log_chunk at 1.
  destruct c as [start_time end_time]. simpl in Hseek. rewrite Hseek.
  rewrite collect_empty_result. apply IH.
  intros c' Hc'. apply Hall. by right.
Qed.

End Backfill.

(** *** Starting *)

Section Start.

Context {R : Type} `{!JournalReader R}.
Variable decode_utf8 : list Byte.byte → string.
Variable chunk_width : Z → Z → Z.

Local Abbreviation St := (St R).

Lemma keeps_ret {A} (a : A) : keeps_backfill R (ret a).
Proof. by intros st r st' [= <- <-]. Qed.

Lemma keeps_get : keeps_backfill R get.
Proof. by intros st r st' [= <- <-]. Qed.

Lemma keeps_bind {A B} (m : M St A) (k : A → M St B) :
  keeps_backfill R m → (∀ a, keeps_backfill R (k a)) →
  keeps_backfill R (bind m k).
Proof.
  intros Hm Hk st r st'. unfold bind.
  destruct (m st) as [[a | e] st1] eqn:Hmst.
  - intros Hkst. destruct (Hm _ _ _ Hmst) as (<- & <- & <-).
    exact (Hk a _ _ _ Hkst).
  - intros [= <- <-]. exact (Hm _ _ _ Hmst).
Qed.

Lemma keeps_try_except {A} (m : M St A) (h : exn → M St A) :
  keeps_backfill R m → (∀ e, keeps_backfill R (h e)) →
  keeps_backfill R (try_except m h).
Proof.
  intros Hm Hh st r st'. unfold try_except.
  destruct (m st) as [[a | e] st1] eqn:Hmst.
  - intros [= <- <-]. exact (Hm _ _ _ Hmst).
  - intros Hhst. destruct (Hm _ _ _ Hmst) as (<- & <- & <-).
    exact (Hh e _ _ _ Hhst).
Qed.

Lemma keeps_on_reader {A} (m : M R A) : keeps_backfill R (on_reader m).
Proof.
  intros [self w] r st'. unfold on_reader.
  destruct (journal self) as [j|]; [| by intros [= <- <-]].
  destruct (m j) as [res j']. by intros [= <- <-].
Qed.

Lemma keeps_on_self_get : keeps_backfill R (on_self get).
Proof. intros [self w] r st'. by intros [= <- <-]. Qed.

Lemma keeps_set_cursor c :
  keeps_backfill R (on_self (modify (set_cursor c))).
Proof. intros [self w] r st'. by intros [= <- <-]. Qed.

Lemma keeps_set_journal j :
  keeps_backfill R (on_self (modify (set_journal j))).
Proof. intros [self w] r st'. by intros [= <- <-]. Qed.

Lemma keeps_on_world {A} (m : M (World R) A) :
  (∀ w r w', m w = (r, w') → w_threads w' = w_threads w) →
  keeps_backfill R (on_world m).
Proof.
  intros Hm [self w] r st'. unfold on_world.
  destruct (m w) as [res w'] eqn:Hmw. intros [= <- <-].
  repeat split. exact (Hm _ _ _ Hmw).
Qed.

Lemma keeps_mkdir : keeps_backfill R (on_world mkdir).
Proof.
  apply keeps_on_world. intros w r w'. unfold mkdir.
  destruct (w_mkdir_fault w); by intros [= <- <-].
Qed.

Lemma keeps_load_cursor : keeps_backfill R (on_world _load_cursor).
Proof.
  apply keeps_on_world. intros w r w'. unfold _load_cursor.
  destruct (w_cursor_file w); [destruct (w_read_fault w) |];
    by intros [= <- <-].
Qed.

Lemma keeps_open_reader :
  keeps_backfill R (on_world (λ w, (w_reader w, w))).
Proof. apply keeps_on_world. by intros w r w' [= <- <-]. Qed.

(** One step through the body of a method: a known call, a sequence, a
    handler, or a branch. *)
Ltac keeps_step :=
  first
    [ apply keeps_ret | apply keeps_get | apply keeps_on_self_get
    | apply keeps_on_reader | apply keeps_set_cursor
    | apply keeps_set_journal | apply keeps_mkdir
    | apply keeps_load_cursor | apply keeps_open_reader
    | apply keeps_bind; [| intros ?]
    | apply keeps_try_except; [| intros ?]
    | match goal with
      | |- keeps_backfill _ (match ?x with _ => _ end) => destruct x
      end ].

Lemma keeps_initialize_journal_position :
  keeps_backfill R _initialize_journal_position.
Proof. unfold _initialize_journal_position. repeat keeps_step. Qed.

Lemma keeps_start_position : keeps_backfill R start_position.
Proof.
  unfold start_position.
  repeat first [apply keeps_initialize_journal_position | keeps_step].
Qed.

Lemma step_backfill_over (st st' : St) :
  step decode_utf8 st st' → backfill_over st → backfill_over st'.
Proof.
  intros Hstep (Hq & Hd & Ht). destruct Hstep as
    [[self w] | self w j j' Hj | self w ts1 t ts2 ev rest Hts
    | self w ts1 t ts2 Hts].
  - rewrite (poll_spec decode_utf8 self w). cbv zeta. simpl in Hq, Hd, Ht.
    rewrite Hq. destruct (journal self) as [j|].
    + destruct (iter_entries j) as [[entries err] j']. by repeat split.
    + by repeat split.
  - by repeat split.
  - simpl in Ht. rewrite Ht in Hts. by destruct ts1.
  - simpl in Ht. rewrite Ht in Hts. by destruct ts1.
Qed.

Lemma steps_backfill_over (st st' : St) :
  rtc (step decode_utf8) st st' →
  backfill_over st → backfill_over st'.
Proof. induction 1; eauto using step_backfill_over. Qed.

(** C5: when the scan range [start] discovers has no start, or is
    empty, [start] returns normally, launches no supervisor thread and
    hence no worker pool, and sets [history_done]; from then on, whatever
    the system does, every poll returns exactly the events of the live
    entries it reads.  The source is one that has queued nothing and runs
    no backfill yet, as after [__init__]. *)
Theorem start_without_range_is_done (st0 st1 : St)
    (scan : option Z * option Z) :
  history_queue st0.1 = [] →
  w_threads st0.2 = [] →
  start_position st0 = (Ok scan, st1) →
  range_valid scan = false →
  ∃ st2,
    start decode_utf8 chunk_width st0 = (Ok tt, st2) ∧
    history_done st2.1 = true ∧
    w_threads st2.2 = w_threads st0.2 ∧
    ∀ st3, rtc (step decode_utf8) st2 st3 →
      history_done st3.1 = true ∧
      ∀ entries, available st3.1 = (entries, None) →
        (poll decode_utf8 st3).1 = Ok (live_events decode_utf8 entries).
Proof.
  intros Hq Ht Hpos Hrange.
  destruct (keeps_start_position _ _ _ Hpos) as (Hq1 & _ & Ht1).
  destruct st1 as [self1 w1]. simpl in Hq1, Ht1.
  exists (set_history_done true self1, w1).
  assert (Hstart : start decode_utf8 chunk_width st0
                   = (Ok tt, (set_history_done true self1, w1))).
  { unfold start, bind. rewrite Hpos.
    unfold start_backfill. by rewrite Hrange. }
  split; [exact Hstart |]. split; [reflexivity |]. split; [exact Ht1 |].
  intros st3 Hsteps.
  assert (Hover : backfill_over st3).
  { apply (steps_backfill_over _ _ Hsteps).
    repeat split; simpl; congruence. }
  destruct Hover as (Hq3 & Hd3 & _). split; [exact Hd3 |].
  intros entries Hav. destruct st3 as [self3 w3]. simpl in Hq3, Hav.
  rewrite (poll_spec decode_utf8 self3 w3). cbv zeta. rewrite Hq3.
  unfold available in Hav. destruct (journal self3) as [j|].
  - destruct (iter_entries j) as [[entries' err] j'].
    simpl in Hav. by injection Hav as -> ->.
  - by injection Hav as <-.
Qed.

(** The read error of the checkpoint goes through [start]: whatever the
    source and the rest of the world, [start] raises it, having done no
    more than make the directory. *)
Lemma start_propagates_read_failure (self : SystemdSource R) (w : World R)
    (text : string) (e : exn) :
  w_mkdir_fault w = None →
  w_cursor_file w = Some text →
  w_read_fault w = Some e →
  start decode_utf8 chunk_width (self, w) =
  (Raised e, (self, set_cursor_dir true w)).
Proof.
  intros Hmk Hfile Hread.
  unfold start, start_position, bind, on_world, mkdir, _load_cursor.
  rewrite Hmk. simpl. by rewrite Hfile, Hread.
Qed.

End Start.

(** *** Runs on the small journal *)

Example plan_of_100_seconds :
  _create_time_chunks Ex.width 4 0 (100 * SECOND) =
  [(0, 25 * SECOND); (25 * SECOND, 50 * SECOND); (50 * SECOND, 75 * SECOND);
   (75 * SECOND, 101 * SECOND)].
Proof. reflexivity. Qed.

Example plan_of_5_seconds :
  _create_time_chunks Ex.width 4 0 (5 * SECOND) = [(0, 5 * SECOND)].
Proof. reflexivity. Qed.

Example plan_on_one_core :
  _create_time_chunks Ex.width 1 0 (100 * SECOND) = [(0, 101 * SECOND)].
Proof. reflexivity. Qed.

Example strip_checkpoint_text :
  strip (String " " (String "s" (String "=" (String "1"
          (String (ascii_of_nat 10) EmptyString))))) = "s=1".
Proof. reflexivity. Qed.

Example blank_entry_is_skipped :
  _entry_to_dict Ex.decode Ex.entry_blank = None.
Proof. reflexivity. Qed.

Example poll_on_the_small_journal :
  raw_message <$> default [] (match (poll Ex.decode (Ex.tailing, Ex.world)).1
                              with Ok events => Some events | _ => None end)
  = ["boot"; "link up"].
Proof. vm_compute. reflexivity. Qed.

(** The watcher's source ([time_period] is NOW) starts with the backfill
    done, no supervisor, and the cursor on the tail of the journal. *)
Example start_of_the_watcher :
  (start Ex.decode Ex.width (Ex.fresh, Ex.world)).1 = Ok tt ∧
  history_done (start Ex.decode Ex.width (Ex.fresh, Ex.world)).2.1 = true ∧
  cursor (start Ex.decode Ex.width (Ex.fresh, Ex.world)).2.1
    = Some "s=1;i=2" ∧
  w_threads (start Ex.decode Ex.width (Ex.fresh, Ex.world)).2.2 = [].
Proof. repeat split; vm_compute; reflexivity. Qed.

(** With [time_period] ALL the range is ten seconds long: a supervisor is
    launched, with the one event of the journal to put. *)
Example start_with_history :
  (pending <$> w_threads
     (start Ex.decode Ex.width (__init__ 2 ALL None, Ex.world)).2.2)
  = [omap (_entry_to_dict Ex.decode) [Ex.entry_a]] ∧
  history_done (start Ex.decode Ex.width (__init__ 2 ALL None, Ex.world)).2.1
  = false.
Proof. split; vm_compute; reflexivity. Qed.

Lemma create_time_chunks_plan_witness :
  length (_create_time_chunks Ex.width 4 0 (100 * SECOND)) = 4%nat ∧
  covers (_create_time_chunks Ex.width 4 0 (100 * SECOND)) 0 (100 * SECOND).
Proof.
  destruct (create_time_chunks_plan Ex.width 4 0 (100 * SECOND))
    as [_ Hlong]; [unfold SECOND; lia | lia |].
  destruct Hlong as (Hlen & _ & _ & _ & _ & Hcov); [unfold SECOND; lia |].
  split; [exact Hlen | exact Hcov].
Defined.


Lemma poll_without_reader_witness :
  poll Ex.decode (Ex.stopped, Ex.world) =
  (Ok (take 100 (history_queue Ex.stopped)),
   (set_history_queue (drop 100 (history_queue Ex.stopped)) Ex.stopped,
    Ex.world)).
Proof.
  apply (poll_without_reader Ex.decode Ex.stopped Ex.world). reflexivity.
Defined.


(** The claim C1 as it is written fails on the small journal: the poll
    reads [entry_a] and then [entry_blank], which has no message; the
    cursor it leaves is the token of [entry_a], not that of the last
    entry read. *)
Lemma poll_cursor_is_not_last_consumed :
  ¬ cursor_is_last_consumed Ex.decode (Ex.tailing, Ex.world).
Proof.
  intros Hclaim. specialize (Hclaim Ex.entry_blank eq_refl).
  vm_compute in Hclaim. discriminate Hclaim.
Qed.

Lemma poll_cursor_follows_last_event_witness :
  cursor (poll Ex.decode (Ex.tailing, Ex.world)).2.1 =
  match last (translated Ex.decode [Ex.entry_a; Ex.entry_blank]) with
  | Some e => e_CURSOR e
  | None => cursor Ex.tailing
  end.
Proof.
  apply (poll_cursor_follows_last_event Ex.decode Ex.tailing Ex.world
           Ex.reader (lr_move 1 true Ex.reader)
           [Ex.entry_a; Ex.entry_blank] None);
    reflexivity.
Defined.

Lemma stop_persists_then_releases_witness :
  ∃ w',
    stop (Ex.resumed, Ex.world) = (Ok tt, (set_journal None Ex.resumed, w')) ∧
    w_cursor_file w' = Some "s=1;i=1" ∧
    w_closed w' = [close Ex.reader].
Proof.
  destruct (stop_persists_then_releases Ex.resumed Ex.world)
    as (w' & Hstop & Hfile & Hclose & _).
  exists w'. split; [exact Hstop |].
  split; [exact (Hfile _ eq_refl eq_refl) | exact (Hclose _ eq_refl)].
Defined.

Lemma stop_without_cursor_keeps_file_witness :
  w_cursor_file (stop (Ex.tailing, Ex.world)).2.2 = w_cursor_file Ex.world.
Proof.
  apply (stop_without_cursor_keeps_file Ex.tailing Ex.world). reflexivity.
Defined.

Lemma chunk_seek_failure_is_absorbed_witness :
  process_log_chunk Ex.decode (Ok Ex.reader_no_seek) (0, 15 * SECOND)
    = Ok [] ∧
  collect (process_log_chunk Ex.decode (Ok Ex.reader_no_seek)
             <$> ([(15 * SECOND, 31 * SECOND)] ++ (0, 15 * SECOND) :: [])) =
  collect (process_log_chunk Ex.decode (Ok Ex.reader_no_seek)
             <$> ([(15 * SECOND, 31 * SECOND)] ++ [])).
Proof.
  apply (chunk_seek_failure_is_absorbed Ex.decode Ex.reader_no_seek
           Ex.reader_no_seek (0, 15 * SECOND) PermissionError).
  reflexivity.
Defined.

Lemma start_without_range_is_done_witness :
  ∃ st2,
    start Ex.decode Ex.width (Ex.fresh, Ex.world) = (Ok tt, st2) ∧
    history_done st2.1 = true ∧
    w_threads st2.2 = w_threads Ex.world ∧
    ∀ st3, rtc (step Ex.decode) st2 st3 →
      history_done st3.1 = true ∧
      ∀ entries, available st3.1 = (entries, None) →
        (poll Ex.decode st3).1 = Ok (live_events Ex.decode entries).
Proof.
  apply (start_without_range_is_done Ex.decode Ex.width
           (Ex.fresh, Ex.world) (start_position (Ex.fresh, Ex.world)).2
           (Some (20 * SECOND), Some (20 * SECOND)));
    [reflexivity | reflexivity | vm_compute; reflexivity | reflexivity].
Defined.

(** C6 fails on the code: [_load_cursor] opens and reads the checkpoint
    outside any handler.  With a checkpoint file that is there and cannot
    be read, [start] raises the error of the read to its caller and
    prints nothing. *)
Lemma start_raises_on_unreadable_checkpoint :
  (start Ex.decode Ex.width (Ex.fresh, Ex.world_unreadable)).1
    = Raised PermissionError ∧
  w_stdout (start Ex.decode Ex.width (Ex.fresh, Ex.world_unreadable)).2.2
    = [].
Proof. split; vm_compute; reflexivity. Qed.

(** ** Further properties of the code *)

(** *** Translation of entries *)

(** X1: the mapping never yields CRITICAL, and a code outside 0..7 is
    not refused: below 0 it gives ERROR, above 7 it gives DEBUG. *)
Theorem map_priority_out_of_range :
  (∀ priority, _map_priority_to_severity priority ≠ CRITICAL) ∧
  (∀ p, p < 0 → _map_priority_to_severity (Some p) = ERROR) ∧
  (∀ p, 7 < p → _map_priority_to_severity (Some p) = DEBUG).
Proof.
  unfold _map_priority_to_severity. repeat split.
  - intros [p|]; [| discriminate].
    destruct (p <=? 3); [discriminate |].
    destruct (p =? 4); [discriminate |].
    destruct (p <=? 6); discriminate.
  - intros p Hp. destruct (Z.leb_spec p 3); [reflexivity | lia].
  - intros p Hp. destruct (Z.leb_spec p 3); [lia |].
    destruct (Z.eqb_spec p 4); [lia |].
    destruct (Z.leb_spec p 6); [lia | reflexivity].
Qed.

Lemma map_priority_out_of_range_witness :
  _map_priority_to_severity (Some (-1)) = ERROR ∧
  _map_priority_to_severity (Some 8) = DEBUG.
Proof.
  destruct map_priority_out_of_range as (_ & Hlow & Hhigh).
  split; [apply Hlow; lia | apply Hhigh; lia].
Defined.

Section Entries.

Variable decode_utf8 : list Byte.byte → string.

(** X2: an entry with no message, or with an empty one, text or
    bytes, is skipped: the result is [None], whatever its other fields
    hold.  An event comes only from a message that is not empty, and its
    [raw_message] is that message, decoded when it is bytes. *)
Theorem entry_to_dict_needs_message (entry : Entry) :
  (match e_MESSAGE entry with
   | Some msg => msg_truthy msg = false
   | None => True
   end → _entry_to_dict decode_utf8 entry = None) ∧
  (∀ ev, _entry_to_dict decode_utf8 entry = Some ev →
     ∃ msg, e_MESSAGE entry = Some msg ∧ msg_truthy msg = true ∧
            raw_message ev = match msg with
                             | MsgStr s => s
                             | MsgBytes b => decode_utf8 b
                             end).
Proof.
  unfold _entry_to_dict. destruct (e_MESSAGE entry) as [msg|].
  - destruct (msg_truthy msg) eqn:Hmsg; simpl; split.
    + discriminate.
    + intros ev [= <-]. exists msg. by destruct msg.
    + reflexivity.
    + discriminate.
  - split; [reflexivity | discriminate].
Qed.

Lemma or_str_truthy (a : option string) (b : string) :
  str_truthy b = true → str_truthy (or_str a b) = true.
Proof.
  intros Hb. unfold or_str. destruct a as [s|]; [| exact Hb].
  destruct (str_truthy s) eqn:Hs; [exact Hs | exact Hb].
Qed.

(** X3: the subsystem of an event is never empty: it is the syslog
    identifier when that is not empty, else the systemd unit when that
    is not empty, else the text "unknown". *)
Theorem entry_to_dict_subsystem (entry : Entry) (ev : LogEvent) :
  _entry_to_dict decode_utf8 entry = Some ev →
  subsystem ev ≠ "" ∧
  subsystem ev =
    match e_SYSLOG_IDENTIFIER entry, e_SYSTEMD_UNIT entry with
    | Some (String a s), _ => String a s
    | _, Some (String a s) => String a s
    | _, _ => "unknown"
    end.
Proof.
  unfold _entry_to_dict. destruct (e_MESSAGE entry) as [msg|]; [| discriminate].
  destruct (negb (msg_truthy msg)); [discriminate |].
  intros [= <-]. simpl. split.
  - assert (Ht : str_truthy
                   (or_str (e_SYSLOG_IDENTIFIER entry)
                      (or_str (e_SYSTEMD_UNIT entry) "unknown")) = true)
      by (apply or_str_truthy, or_str_truthy; reflexivity).
    intros Heq. rewrite Heq in Ht. discriminate.
  - destruct (e_SYSLOG_IDENTIFIER entry) as [[|a s]|];
      destruct (e_SYSTEMD_UNIT entry) as [[|a' s']|]; reflexivity.
Qed.

(** X4: the metadata of an event holds exactly the fields of the entry
    whose value is a str, an int, a float or a bool, with that value; in
    particular a timestamp, which is a datetime, and a message given as
    bytes are not in it. *)
Theorem entry_to_dict_structured_data (entry : Entry) (ev : LogEvent) :
  _entry_to_dict decode_utf8 entry = Some ev →
  (∀ k v, structured_data ev !! k = Some v ↔
          items entry !! k = Some v ∧ is_scalar v = true) ∧
  (∀ b, e_MESSAGE entry = Some (MsgBytes b) →
        structured_data ev !! "MESSAGE" = None ∧
        raw_message ev = decode_utf8 b) ∧
  (∀ t, e_REALTIME_TIMESTAMP entry = Some t →
        structured_data ev !! "__REALTIME_TIMESTAMP" = None).
Proof.
  unfold _entry_to_dict. destruct (e_MESSAGE entry) as [msg|] eqn:Hmsg;
    [| discriminate].
  destruct (negb (msg_truthy msg)); [discriminate |].
  intros [= <-]. simpl.
  assert (Hfilter : ∀ k v,
    filter (λ kv : string * value, is_scalar kv.2 = true) (items entry) !! k
      = Some v ↔ items entry !! k = Some v ∧ is_scalar v = true).
  { intros k v. apply (map_lookup_filter_Some
      (λ kv : string * value, is_scalar kv.2 = true) (items entry) k v). }
  split; [exact Hfilter |]. split.
  - intros b [= ->]. split; [| reflexivity].
    apply eq_None_not_Some. intros [v Hv]. apply Hfilter in Hv as [Hv Hsc].
    unfold items in Hv. rewrite Hmsg in Hv. simpl in Hv.
    rewrite lookup_insert_eq in Hv. injection Hv as <-. discriminate.
  - intros t Ht.
    apply eq_None_not_Some. intros [v Hv]. apply Hfilter in Hv as [Hv Hsc].
    unfold items in Hv. rewrite Hmsg, Ht in Hv. simpl in Hv.
    rewrite lookup_insert_ne in Hv by discriminate.
    destruct (e_PRIORITY entry); simpl in Hv;
      [rewrite lookup_insert_ne in Hv by discriminate |];
      rewrite lookup_insert_eq in Hv; injection Hv as <-; discriminate.
Qed.

End Entries.

(** *** The scan of a chunk *)

Section ChunkScan.

Context {R : Type} `{!JournalReader R}.
Variable decode_utf8 : list Byte.byte → string.

Lemma scan_loop_spec (end_time : Z) (entries : list Entry)
    (err : option exn) (events : list LogEvent) :
  scan_loop decode_utf8 end_time entries err events =
  match (if existsb (past_end end_time) entries then None else err) with
  | Some e => Raised e
  | None =>
      Ok (events ++ omap (_entry_to_dict decode_utf8)
                         (up_to_end end_time entries))
  end.
Proof.
  revert events. induction entries as [|entry entries IH]; intros events.
  - simpl. destruct err; [reflexivity | by rewrite app_nil_r].
  - simpl. unfold past_end at 1 3.
    destruct (e_REALTIME_TIMESTAMP entry) as [t|] eqn:Ht;
      [destruct (t >? end_time) eqn:Hgt |]; simpl.
    + by rewrite app_nil_r.
    + destruct (_entry_to_dict decode_utf8 entry) as [ev|]; rewrite IH;
        destruct (if existsb _ _ then _ else _); try reflexivity.
      by rewrite <- app_assoc.
    + destruct (_entry_to_dict decode_utf8 entry) as [ev|]; rewrite IH;
        destruct (if existsb _ _ then _ else _); try reflexivity.
      by rewrite <- app_assoc.
Qed.

Lemma up_to_end_within (end_time : Z) (entries : list Entry) (entry : Entry) :
  entry ∈ up_to_end end_time entries → past_end end_time entry = false.
Proof.
  induction entries as [|e entries IH]; simpl; [by intros ?%elem_of_nil |].
  destruct (past_end end_time e) eqn:He; [by intros ?%elem_of_nil |].
  intros [-> | Hin]%elem_of_cons; [exact He | by apply IH].
Qed.

Lemma entry_to_dict_timestamp (entry : Entry) (ev : LogEvent) :
  _entry_to_dict decode_utf8 entry = Some ev →
  timestamp ev = e_REALTIME_TIMESTAMP entry.
Proof.
  unfold _entry_to_dict. destruct (e_MESSAGE entry) as [msg|]; [| discriminate].
  destruct (negb (msg_truthy msg)); [discriminate |]. by intros [= <-].
Qed.


(** X6: no event a chunk task returns is later than the end of its
    chunk: its timestamp, when it has one, is at most [end_time]. *)
Theorem process_log_chunk_within_end (opened : result R)
    (start_time end_time : Z) (events : list LogEvent) :
  process_log_chunk decode_utf8 opened (start_time, end_time) = Ok events →
  ∀ ev t, ev ∈ events → timestamp ev = Some t → t ≤ end_time.
Proof.
  unfold process_log_chunk. destruct opened as [j | e]; [| discriminate].
  destruct (seek_realtime start_time j) as [[[] | e] j1].
  - destruct (iter_entries j1) as [[entries err] j2].
    rewrite scan_loop_spec.
    destruct (if existsb _ _ then _ else _); [discriminate |].
    intros [= <-] ev t Hin Ht. simpl in Hin.
    apply list_elem_of_omap in Hin as (entry & Hentry & Hev).
    apply up_to_end_within in Hentry. unfold past_end in Hentry.
    rewrite <- (entry_to_dict_timestamp _ _ Hev), Ht in Hentry.
    destruct (Z.gtb_spec t end_time); [discriminate | lia].
  - intros [= <-] ev t Hin. by apply elem_of_nil in Hin.
Qed.

End ChunkScan.

(** *** The supervisor and the queue *)

Section Supervisor.

Context {R : Type} `{!JournalReader R}.
Variable decode_utf8 : list Byte.byte → string.

(** X7: the supervisor puts the events of the workers' results in the
    order the results arrive.  When all workers return, it puts them all
    and ends normally; when a worker raised, it puts the events of the
    results that arrived before, none of those that would arrive after,
    and ends by that exception. *)
Theorem collect_until_exception (arrived : list (list LogEvent)) (e : exn)
    (later : list (result (list LogEvent))) :
  collect (Ok <$> arrived) = {| pending := concat arrived; abort := None |} ∧
  collect ((Ok <$> arrived) ++ Raised e :: later) =
    {| pending := concat arrived; abort := Some e |}.
Proof.
  split; induction arrived as [|chunk_res arrived IH]; try reflexivity;
    rewrite fmap_cons; cbn [collect app]; by rewrite IH.
Qed.

End Supervisor.

(** *** More on polling *)

Section PollMore.

Context {R : Type} `{!JournalReader R}.
Variable decode_utf8 : list Byte.byte → string.

(** X9: when the iteration of the live handle ends by a read error,
    [poll] raises that error after it has emptied the front of the queue
    and moved the cursor: the events it took from the queue, and those of
    the entries read before the error, are returned to nobody. *)
Theorem poll_read_error_drops_drained (self : SystemdSource R) (w : World R)
    (j j' : R) (entries : list Entry) (e : exn) :
  journal self = Some j →
  iter_entries j = (entries, Some e, j') →
  ∃ self',
    poll decode_utf8 (self, w) = (Raised e, (self', w)) ∧
    history_queue self' = drop 100 (history_queue self) ∧
    cursor self' = cursor_after decode_utf8 entries (cursor self).
Proof.
  intros Hj Hit. pose proof (poll_spec decode_utf8 self w) as Hp.
  cbv zeta in Hp. rewrite Hj, Hit in Hp.
  eexists. split; [exact Hp |]. by split.
Qed.

(** X10: [poll] changes nothing outside the object: the checkpoint
    file, the output and the threads are as before, whether it returns
    or raises; of the object it changes the queue, the handle and the
    cursor only. *)
Theorem poll_touches_only_the_source (self : SystemdSource R) (w : World R) :
  (poll decode_utf8 (self, w)).2.2 = w ∧
  history_done (poll decode_utf8 (self, w)).2.1 = history_done self ∧
  cpu_count (poll decode_utf8 (self, w)).2.1 = cpu_count self ∧
  (journal self = None → journal (poll decode_utf8 (self, w)).2.1 = None).
Proof.
  rewrite (poll_spec decode_utf8 self w). cbv zeta.
  destruct (journal self) as [j|] eqn:Hj.
  - destruct (iter_entries j) as [[entries err] j']. cbn [fst snd].
    repeat split. discriminate.
  - cbn [fst snd]. repeat split. intros _. exact Hj.
Qed.

(** X11: polls take the queue from its front, in order: two polls of a
    source draw the first 200 events of the queue between them, and with
    no live handle what they return, one after the other, is those
    events. *)
Theorem poll_twice_is_fifo (self : SystemdSource R) (w : World R) :
  let st1 := (poll decode_utf8 (self, w)).2 in
  history_queue (poll decode_utf8 st1).2.1 = drop 200 (history_queue self) ∧
  (journal self = None →
   ∃ first second,
     (poll decode_utf8 (self, w)).1 = Ok first ∧
     (poll decode_utf8 st1).1 = Ok second ∧
     first ++ second = take 200 (history_queue self)).
Proof.
  intros st1. subst st1. set (q := history_queue self).
  assert (Hq2 : ∀ self1 : SystemdSource R, ∀ w1,
            history_queue (poll decode_utf8 (self1, w1)).2.1
            = drop 100 (history_queue self1)).
  { intros self1 w1. rewrite (poll_spec decode_utf8 self1 w1). cbv zeta.
    destruct (journal self1) as [j|]; [| reflexivity].
    by destruct (iter_entries j) as [[entries err] j']. }
  split.
  - destruct (poll decode_utf8 (self, w)) as [r [self1 w1]] eqn:Hp1.
    cbn [fst snd]. rewrite Hq2.
    pose proof (Hq2 self w) as H1. rewrite Hp1 in H1. cbn [fst snd] in H1.
    rewrite H1. by rewrite drop_drop.
  - intros Hj. rewrite (poll_spec decode_utf8 self w). cbv zeta.
    rewrite Hj. cbn [fst snd].
    rewrite (poll_spec decode_utf8 _ w). cbv zeta. simpl. rewrite Hj.
    eexists _, _. split; [reflexivity |]. split; [reflexivity |].
    fold q. rewrite take_drop_commute.
    replace (take 100 q) with (take 100 (take (100 + 100) q))
      by (rewrite take_take; f_equal; lia).
    apply take_drop.
Qed.

End PollMore.

(** *** More on stopping and the checkpoint *)

Section StopMore.

Context {R : Type} `{!JournalReader R}.

Ltac run_stop self w :=
  unfold stop, bind, on_self, get, try_except, on_world, print, modify, ret,
    write_cursor_file;
  destruct self as [n jr cur tp cst q dn]; cbn [cursor journal];
  destruct cur as [c|]; [destruct (str_truthy c) |];
  try (destruct (w_cursor_dir w); cbn [negb];
       [destruct (w_open_fault w);
        [| cbn [w_write_fault set_cursor_file]; destruct (w_write_fault w)] |]);
  destruct jr as [j|].

(** X12: [stop] does not touch the backfill: the supervisor threads
    that run go on running, the events queued stay queued, the done flag
    and the cursor are as they were. *)
Theorem stop_leaves_backfill_running (self : SystemdSource R) (w : World R) :
  w_threads (stop (self, w)).2.2 = w_threads w ∧
  history_queue (stop (self, w)).2.1 = history_queue self ∧
  history_done (stop (self, w)).2.1 = history_done self ∧
  cursor (stop (self, w)).2.1 = cursor self.
Proof. run_stop self w; by repeat split. Qed.

Lemma stop_without_handle_closes_nothing (self : SystemdSource R)
    (w : World R) :
  journal self = None →
  w_closed (stop (self, w)).2.2 = w_closed w.
Proof. intros Hj. run_stop self w; try discriminate Hj; reflexivity. Qed.

(** X13: a second [stop] returns normally and releases nothing more:
    the handle is closed once. *)
Theorem stop_twice_closes_once (self : SystemdSource R) (w : World R) :
  (stop (stop (self, w)).2).1 = Ok tt ∧
  w_closed (stop (stop (self, w)).2).2.2 = w_closed (stop (self, w)).2.2.
Proof.
  destruct (stop_releases self w) as [_ Hself].
  destruct (stop (self, w)) as [r [self1 w1]]. cbn [fst snd] in *.
  split; [apply stop_releases |].
  apply stop_without_handle_closes_nothing. by subst self1.
Qed.

Lemma graphic_not_space (a : ascii) :
  ((33 <=? nat_of_ascii a) && (nat_of_ascii a <=? 126))%nat = true →
  is_space a = false.
Proof.
  unfold is_space. intros [Hlo Hhi]%andb_prop.
  apply Nat.leb_le in Hlo, Hhi.
  apply orb_false_intro; apply andb_false_intro2; apply Nat.leb_gt; lia.
Qed.

Lemma strip_graphic (s : string) : graphic s = true → strip s = s.
Proof.
  intros Hs. unfold strip.
  assert (Hl : lstrip s = s).
  { destruct s as [|a s]; [reflexivity |]. simpl in *.
    apply andb_prop in Hs as [Ha _]. by rewrite (graphic_not_space a Ha). }
  rewrite Hl. clear Hl.
  induction s as [|a s IH]; [reflexivity |]. simpl in *.
  apply andb_prop in Hs as [Ha Hs].
  by rewrite (graphic_not_space a Ha), (IH Hs).
Qed.

(** X14: the cursor goes through the checkpoint file: after a [stop]
    with a cursor made of printable ASCII characters other than the
    space, in a world where the directory exists and neither the write
    nor the next read fails, [_load_cursor] returns that cursor. *)
Theorem checkpoint_round_trip (self : SystemdSource R) (w : World R)
    (c : string) :
  cursor self = Some c →
  str_truthy c = true →
  graphic c = true →
  w_cursor_dir w = true →
  w_open_fault w = None →
  w_write_fault w = None →
  w_read_fault w = None →
  (_load_cursor (stop (self, w)).2.2).1 = Ok (Some c).
Proof.
  intros Hc Ht Hg Hdir Hopen Hwrite Hread.
  unfold stop, bind, on_self, get, try_except, on_world, print, modify, ret,
    write_cursor_file.
  destruct self as [n jr cur tp cst q dn]. cbn [cursor journal] in *.
  subst cur. rewrite Ht, Hdir, Hopen.
  cbn [negb w_write_fault set_cursor_file].
  rewrite Hwrite. destruct jr as [j|]; unfold _load_cursor; simpl;
    by rewrite Hread, (strip_graphic c Hg).
Qed.

End StopMore.

(** *** Positioning the live handle *)

Section Position.

Context {R : Type} `{!JournalReader R}.

Ltac run_position :=
  unfold _initialize_journal_position, bind, on_self, get, try_except,
    on_reader, ret, modify.

(** X15: with a cursor, when the seek to it succeeds,
    [_initialize_journal_position] leaves the handle where the seek put
    it and the cursor as it is; it does not go to the tail. *)
Theorem initialize_resumes_at_cursor (self : SystemdSource R) (w : World R)
    (j j1 : R) (c : string) :
  journal self = Some j →
  cursor self = Some c →
  str_truthy c = true →
  seek_cursor c j = (Ok tt, j1) →
  _initialize_journal_position (self, w) =
  (Ok tt, (set_journal (Some j1) self, w)).
Proof.
  intros Hj Hc Ht Hseek. run_position.
  rewrite Hc, Ht, Hj, Hseek. reflexivity.
Qed.

(** X16: when the seek to the cursor raises, the exception is dropped
    and the handle goes to the tail; the cursor becomes the token of the
    last entry of the journal, if there is one; when reading that entry
    raises, that exception is dropped too and the cursor stays. *)
Theorem initialize_falls_back_to_tail (self : SystemdSource R) (w : World R)
    (j j1 j2 j3 : R) (c : string) (e : exn)
    (previous : result (option Entry)) :
  journal self = Some j →
  cursor self = Some c →
  str_truthy c = true →
  seek_cursor c j = (Raised e, j1) →
  seek_tail j1 = (Ok tt, j2) →
  get_previous j2 = (previous, j3) →
  _initialize_journal_position (self, w) =
  (Ok tt,
   (set_cursor (match previous with
                | Ok (Some last) => e_CURSOR last
                | _ => cursor self
                end)
      (set_journal (Some j3) self), w)).
Proof.
  intros Hj Hc Ht Hseek Htail Hprev. run_position.
  rewrite Hc, Ht, Hj, Hseek. cbn [journal set_journal].
  rewrite Htail. cbn [journal set_journal]. rewrite Hprev.
  destruct self as [n jr cur tp cst q dn]. cbn [cursor] in *. subst cur.
  by destruct previous as [[last|]|e'].
Qed.

(** X17: [_initialize_journal_position] raises only what [seek_tail]
    raises: on a source with a handle, an exception that leaves it is
    one raised by the seek to the tail. *)
Theorem initialize_raises_only_from_seek_tail (self : SystemdSource R)
    (w : World R) (j : R) (e : exn) :
  journal self = Some j →
  (_initialize_journal_position (self, w)).1 = Raised e →
  ∃ j1 j2, seek_tail j1 = (Raised e, j2).
Proof.
  intros Hj. run_position.
  destruct (cursor self) as [c|]; [destruct (str_truthy c) |]; rewrite Hj;
    [destruct (seek_cursor c j) as [[[] | e1] j1]; [discriminate |] | |];
    cbn [journal set_journal];
    (match goal with
     | |- context [seek_tail ?x] =>
         destruct (seek_tail x) as [[[] | e2] j2] eqn:Htail
     end;
     cbn [journal set_journal];
     [ match goal with
       | |- context [get_previous ?x] =>
           destruct (get_previous x) as [[[last|] | e3] j3]
       end; discriminate
     | intros [= ->]; eauto ]).
Qed.

End Position.

(** *** The scan range *)

Section ScanRange.

Context {R : Type} `{!JournalReader R}.

Ltac run_scan_range :=
  unfold _get_scan_range, bind, ret.

(** X18: with the period NOW, when the two reads of the tail see the
    same last entry (or both see no entry), the range is not valid:
    start and end are the same instant, or the start is undefined, and
    no backfill follows. *)
Theorem scan_range_now_is_empty (now : Z) (custom_start_time : option FloatTime)
    (j j1 j2 j3 j4 : R) (last : option Entry) :
  seek_tail j = (Ok tt, j1) →
  get_previous j1 = (Ok last, j2) →
  seek_tail j2 = (Ok tt, j3) →
  get_previous j3 = (Ok last, j4) →
  ∃ scan,
    _get_scan_range now custom_start_time NOW j = (Ok scan, j4) ∧
    scan.1 = entry_time last ∧
    range_valid scan = false.
Proof.
  intros H1 H2 H3 H4. run_scan_range. rewrite H1, H2, H3, H4.
  eexists. split; [reflexivity |]. split; [reflexivity |].
  destruct last as [last|]; [| reflexivity]. simpl.
  destruct (e_REALTIME_TIMESTAMP last) as [t|]; [| reflexivity].
  apply Z.ltb_irrefl.
Qed.



End ScanRange.

(** *** More on starting *)

Section MaintainsEnsures.

Context {S : Type}.

Lemma maintains_ret {A} (P : S → Prop) (a : A) : maintains P (ret a).
Proof. by intros s r s' HP [= <- <-]. Qed.

Lemma maintains_get (P : S → Prop) : maintains P get.
Proof. by intros s r s' HP [= <- <-]. Qed.

Lemma maintains_bind {A B} (P : S → Prop) (m : M S A) (k : A → M S B) :
  maintains P m → (∀ a, maintains P (k a)) → maintains P (bind m k).
Proof.
  intros Hm Hk s r s' HP. unfold bind.
  destruct (m s) as [[a | e] s1] eqn:Hms.
  - apply (Hk a). exact (Hm _ _ _ HP Hms).
  - intros [= <- <-]. exact (Hm _ _ _ HP Hms).
Qed.

Lemma maintains_try_except {A} (P : S → Prop) (m : M S A)
    (h : exn → M S A) :
  maintains P m → (∀ e, maintains P (h e)) → maintains P (try_except m h).
Proof.
  intros Hm Hh s r s' HP. unfold try_except.
  destruct (m s) as [[a | e] s1] eqn:Hms.
  - intros [= <- <-]. exact (Hm _ _ _ HP Hms).
  - apply (Hh e). exact (Hm _ _ _ HP Hms).
Qed.

(** The continuation establishes [P]. *)
Lemma ensures_bind_r {A B} (P : S → Prop) (m : M S A) (k : A → M S B) :
  (∀ a, ensures P (k a)) → ensures P (bind m k).
Proof.
  intros Hk s b s'. unfold bind.
  destruct (m s) as [[a | e] s1]; [apply Hk | discriminate].
Qed.

(** The first computation establishes [P], the continuation keeps it. *)
Lemma ensures_bind_l {A B} (P : S → Prop) (m : M S A) (k : A → M S B) :
  ensures P m → (∀ a, maintains P (k a)) → ensures P (bind m k).
Proof.
  intros Hm Hk s b s'. unfold bind.
  destruct (m s) as [[a | e] s1] eqn:Hms; [| discriminate].
  intros Hks. exact (Hk a _ _ _ (Hm _ _ _ Hms) Hks).
Qed.

End MaintainsEnsures.

Section StartMore.

Context {R : Type} `{!JournalReader R}.
Variable decode_utf8 : list Byte.byte → string.
Variable chunk_width : Z → Z → Z.

Lemma maintains_on_reader {A} (P : St R → Prop) (m : M R A) :
  (∀ self w j, P (self, w) → P (set_journal (Some j) self, w)) →
  maintains P (on_reader m).
Proof.
  intros Hset [self w] r st' HP. unfold on_reader.
  destruct (journal self) as [j|]; [| by intros [= <- <-]].
  destruct (m j) as [res j']. intros [= <- <-]. by apply Hset.
Qed.

Lemma maintains_on_self_modify (P : St R → Prop)
    (f : SystemdSource R → SystemdSource R) :
  (∀ self w, P (self, w) → P (f self, w)) →
  maintains P (on_self (modify f)).
Proof. intros Hf [self w] r st' HP [= <- <-]. by apply Hf. Qed.

Lemma maintains_on_self_get (P : St R → Prop) : maintains P (on_self get).
Proof. by intros [self w] r st' HP [= <- <-]. Qed.

Lemma maintains_on_world {A} (P : St R → Prop) (m : M (World R) A) :
  (∀ self w r w', P (self, w) → m w = (r, w') → P (self, w')) →
  maintains P (on_world m).
Proof.
  intros Hm [self w] r st' HP. unfold on_world.
  destruct (m w) as [res w'] eqn:Hmw. intros [= <- <-].
  exact (Hm _ _ _ _ HP Hmw).
Qed.

Lemma maintains_initialize_journal_position (P : St R → Prop) :
  handle_blind P → maintains P _initialize_journal_position.
Proof.
  intros [Hj Hc]. unfold _initialize_journal_position.
  repeat first
    [ apply maintains_ret | apply maintains_on_self_get
    | apply maintains_on_reader; exact Hj
    | apply maintains_on_self_modify; intros; by apply Hc
    | apply maintains_bind; [| intros ?]
    | apply maintains_try_except; [| intros ?]
    | match goal with
      | |- maintains _ (match ?x with _ => _ end) => destruct x
      end ].
Qed.

Ltac maintains_step side :=
  first
    [ apply maintains_ret | apply maintains_get | apply maintains_on_self_get
    | apply maintains_initialize_journal_position; side
    | apply maintains_on_reader; side
    | apply maintains_on_self_modify; side
    | apply maintains_on_world; side
    | apply maintains_bind; [| intros ?]
    | apply maintains_try_except; [| intros ?]
    | match goal with
      | |- maintains _ (match ?x with _ => _ end) => destruct x
      end ].

Ltac world_side :=
  unfold handle_blind; intros; unfold mkdir, _load_cursor, modify in *;
  repeat case_match; simplify_eq; simpl in *; intuition eauto.

(** X21: when the range discovered is valid, [start] returns normally
    having launched exactly one supervisor thread, the one
    [_scan_history_background] describes for that range, and leaves
    [history_done] and the queue as they were. *)
Theorem start_with_range_launches_one (st0 st1 : St R)
    (scan_start scan_end : Z) :
  start_position st0 = (Ok (Some scan_start, Some scan_end), st1) →
  scan_start < scan_end →
  ∃ st2,
    start decode_utf8 chunk_width st0 = (Ok tt, st2) ∧
    w_threads st2.2 =
      w_threads st0.2 ++
      [_scan_history_background decode_utf8 chunk_width st1.1 st1.2
         (Some scan_start) (Some scan_end)] ∧
    history_done st2.1 = history_done st0.1 ∧
    history_queue st2.1 = history_queue st0.1.
Proof.
  intros Hpos Hlt.
  destruct (keeps_start_position _ _ _ Hpos) as (Hq & Hd & Ht).
  destruct st1 as [self1 w1]. cbn [fst snd] in *.
  eexists. split.
  - unfold start, bind. rewrite Hpos. unfold start_backfill, range_valid.
    apply Z.ltb_lt in Hlt. rewrite Hlt. reflexivity.
  - cbn [fst snd w_threads set_threads]. rewrite Ht. by repeat split.
Qed.

(** X22: [start] writes nothing: whether it returns or raises, the
    checkpoint file, the output and the handles released are as before
    the call. *)
Theorem start_writes_nothing (st : St R) :
  w_cursor_file (start decode_utf8 chunk_width st).2.2 = w_cursor_file st.2 ∧
  w_stdout (start decode_utf8 chunk_width st).2.2 = w_stdout st.2 ∧
  w_closed (start decode_utf8 chunk_width st).2.2 = w_closed st.2.
Proof.
  set (P := λ st' : St R,
         w_cursor_file st'.2 = w_cursor_file st.2 ∧
         w_stdout st'.2 = w_stdout st.2 ∧
         w_closed st'.2 = w_closed st.2).
  assert (Hm : maintains P (start decode_utf8 chunk_width)).
  { unfold start, start_position, start_backfill, P.
    repeat maintains_step world_side. }
  destruct (start decode_utf8 chunk_width st) as [r st'] eqn:Hst.
  exact (Hm st r st' (conj eq_refl (conj eq_refl eq_refl)) Hst).
Qed.

(** X23: a [start] that returns has made the checkpoint directory and
    left the source with an open handle: the polls that follow read the
    journal. *)
Theorem start_opens_the_handle (st st' : St R) :
  start decode_utf8 chunk_width st = (Ok tt, st') →
  is_Some (journal st'.1) ∧ w_cursor_dir st'.2 = true.
Proof.
  intros Hst.
  assert (Hdir : ensures (λ st' : St R, w_cursor_dir st'.2 = true)
                   (start decode_utf8 chunk_width)).
  { unfold start, start_position, start_backfill.
    apply ensures_bind_l; [| intros scan; repeat maintains_step world_side].
    apply ensures_bind_l; [| intros; repeat maintains_step world_side].
    intros [self w] a [self' w']. unfold on_world, mkdir.
    destruct (w_mkdir_fault w); simpl; [discriminate |].
    intros ?. by simplify_eq. }
  assert (Hj : ensures (λ st' : St R, is_Some (journal st'.1))
                 (start decode_utf8 chunk_width)).
  { unfold start, start_position, start_backfill.
    apply ensures_bind_l; [| intros scan; repeat maintains_step world_side].
    do 4 (apply ensures_bind_r; intros ?).
    apply ensures_bind_l; [| intros; repeat maintains_step world_side].
    intros [self w] a' [self' w'] Hset. unfold on_self, modify in Hset.
    simplify_eq. simpl. eauto. }
  split; [exact (Hj _ _ _ Hst) | exact (Hdir _ _ _ Hst)].
Qed.

(** X24: a source is built with at least one core, whatever
    [core_allocation] is given: the number given when it is positive,
    one otherwise; and the plan of its chunks is never empty. *)
Theorem init_plans_at_least_one_chunk (core_allocation : Z)
    (time_period : TimePeriod) (custom_start_time : option FloatTime)
    (start_time end_time : Z) :
  let self : SystemdSource R :=
    __init__ core_allocation time_period custom_start_time in
  1 ≤ cpu_count self ∧
  cpu_count self = Z.max core_allocation 1 ∧
  _create_time_chunks chunk_width (cpu_count self) start_time end_time ≠ [].
Proof.
  intros self. subst self. cbn [cpu_count __init__].
  assert (Hn : (if core_allocation >? 0 then core_allocation else 1)
               = Z.max core_allocation 1)
    by (destruct (Z.gtb_spec core_allocation 0); lia).
  rewrite Hn. split; [lia |]. split; [reflexivity |].
  unfold _create_time_chunks.
  destruct (end_time - start_time <=? 5 * SECOND); [discriminate |].
  intros Hnil. apply (f_equal length) in Hnil.
  rewrite chunk_loop_length, range_length in Hnil. simpl in Hnil. lia.
Qed.

End StartMore.

(** *** The aggregator and the watcher *)

Section AggregatorMore.

Context {R : Type} `{!JournalReader R}.
Variable decode_utf8 : list Byte.byte → string.
Variable chunk_width : Z → Z → Z.
Variable str_timestamp : option Z → string.
Variable asleep : SourcesSt (R:=R) → SourcesSt (R:=R).



Lemma for_sources_raise {A} (call : M (St R) A)
    (before rest : list (SystemdSource R)) (source : SystemdSource R)
    (w w1 w2 : World R) (results : list A)
    (before' : list (SystemdSource R)) (source' : SystemdSource R)
    (e : exn) :
  for_sources call before w = (Ok results, (before', w1)) →
  call (source, w1) = (Raised e, (source', w2)) →
  for_sources call (before ++ source :: rest) w =
  (Raised e, (before' ++ source' :: rest, w2)).
Proof.
  revert w results before'.
  induction before as [|b before IH]; intros w results before' Hbefore Hcall.
  - cbn in Hbefore. simplify_eq. cbn. by rewrite Hcall.
  - cbn in Hbefore |- *.
    destruct (call (b, w)) as [[a | e1] [b' wb]]; [| discriminate].
    destruct (for_sources call before wb) as [[rs | e2] [bs ws]] eqn:Hrec;
      [| discriminate].
    simplify_eq. by rewrite (IH _ _ _ Hrec Hcall).
Qed.

(** X26: [Sources.start] starts the sources in the order of the list
    and stops at the first whose [start] raises: that exception is
    raised, the sources before it are started, those after it are as
    they were. *)
Theorem sources_start_stops_at_first_failure
    (before rest : list (SystemdSource R)) (source : SystemdSource R)
    (w w1 w2 : World R) (before' : list (SystemdSource R))
    (source' : SystemdSource R) (e : exn) :
  Sources_start decode_utf8 chunk_width (before, w) = (Ok tt, (before', w1)) →
  start decode_utf8 chunk_width (source, w1) = (Raised e, (source', w2)) →
  Sources_start decode_utf8 chunk_width (before ++ source :: rest, w) =
  (Raised e, (before' ++ source' :: rest, w2)).
Proof.
  unfold Sources_start. intros Hbefore Hstart.
  destruct (for_sources (start decode_utf8 chunk_width) before w)
    as [[results | e1] [bs ws]] eqn:Hfor; [| discriminate].
  simplify_eq. by rewrite (for_sources_raise _ _ _ _ _ _ _ _ _ _ _ Hfor Hstart).
Qed.

Lemma stop_closes (self : SystemdSource R) (w : World R) :
  w_closed (stop (self, w)).2.2 =
  w_closed w ++ match journal self with Some j => [close j] | None => [] end.
Proof.
  unfold stop, bind, on_self, get, try_except, on_world, print, modify, ret,
    write_cursor_file.
  destruct self as [n jr cur tp cst q dn]; cbn [cursor journal];
  destruct cur as [c|]; [destruct (str_truthy c) |];
  try (destruct (w_cursor_dir w); cbn [negb];
       [destruct (w_open_fault w);
        [| cbn [w_write_fault set_cursor_file]; destruct (w_write_fault w)] |]);
  destruct jr as [j|]; simpl; by rewrite ?app_nil_r.
Qed.

Lemma for_sources_stop (sources : list (SystemdSource R)) (w : World R) :
  ∃ w',
    for_sources stop sources w =
      (Ok (replicate (length sources) tt),
       (set_journal None <$> sources, w')) ∧
    w_closed w' = w_closed w ++ (close <$> omap journal sources).
Proof.
  revert w. induction sources as [|self sources IH]; intros w.
  - exists w. split; [reflexivity |]. simpl. by rewrite app_nil_r.
  - cbn [for_sources].
    destruct (stop_releases self w) as [Hok Hself].
    pose proof (stop_closes self w) as Hcl.
    destruct (stop (self, w)) as [r [self1 w1]]. cbn [fst snd] in *.
    subst r self1. destruct (IH w1) as (w' & Hfor & Hcl').
    exists w'. rewrite Hfor. split; [reflexivity |].
    rewrite Hcl', Hcl, <- app_assoc. f_equal.
    cbn [omap list_omap]. by destruct (journal self).
Qed.

(** X27: [Sources.stop] never raises on sources of this kind: it stops
    every source of the list, each ends without a handle, and every
    handle that was open is closed, once, in the order of the list. *)
Theorem sources_stop_releases_all (sources : list (SystemdSource R))
    (w : World R) :
  ∃ w',
    Sources_stop (sources, w) = (Ok tt, (set_journal None <$> sources, w')) ∧
    Forall (λ self, journal self = None) (set_journal None <$> sources) ∧
    w_closed w' = w_closed w ++ (close <$> omap journal sources).
Proof.
  destruct (for_sources_stop sources w) as (w' & Hfor & Hcl).
  exists w'. unfold Sources_stop. rewrite Hfor.
  split; [reflexivity |]. split; [| exact Hcl].
  apply Forall_fmap, Forall_true. reflexivity.
Qed.

Lemma sources_stop_ok (st : SourcesSt (R:=R)) :
  ∃ w', Sources_stop st = (Ok tt, (set_journal None <$> st.1, w')).
Proof.
  destruct st as [sources w].
  destruct (for_sources_stop sources w) as (w' & Hfor & _).
  exists w'. unfold Sources_stop. by rewrite Hfor.
Qed.

(** X28: [Watcher.run] never raises and always ends by stopping its
    sources: whether [start] raises, a poll raises, or the process is
    interrupted after any number of rounds, whatever happened while it
    slept, no source is left with a handle. *)
Theorem watcher_run_always_stops (os_cpu_count : option Z)
    (iterations : nat) (w : World R) :
  ∃ how sources w',
    Watcher_run decode_utf8 chunk_width str_timestamp asleep
      os_cpu_count iterations w = (Ok how, (sources, w')) ∧
    Forall (λ self, journal self = None) sources.
Proof.
  unfold Watcher_run.
  destruct ((Sources_start decode_utf8 chunk_width;;;
             run_loop decode_utf8 str_timestamp asleep iterations) _)
    as [[[] | e] st].
  - destruct (sources_stop_ok st) as (w' & ->).
    eexists _, _, _. split; [reflexivity |].
    apply Forall_fmap, Forall_true. reflexivity.
  - unfold bind, Watcher_print. destruct st as [sources w1].
    destruct (sources_stop_ok
                (sources,
                 set_stdout (w_stdout w1 ++ ["Error: " +:+ exn_str e]) w1))
      as (w' & ->).
    eexists _, _, _. split; [reflexivity |].
    apply Forall_fmap, Forall_true. reflexivity.
Qed.

(** X29: when [start] raises, [Watcher.run] does not poll: it prints
    the error, stops the source and returns, the same whatever number of
    rounds the loop would have made. *)
Theorem watcher_run_start_failure (os_cpu_count : option Z)
    (iterations : nat) (w w1 : World R) (source1 : SystemdSource R)
    (e : exn) :
  start decode_utf8 chunk_width
    (__init__ 8 NOW None,
     set_stdout
       (w_stdout w ++
        ["Starting log watcher on "
         +:+ pretty (Watcher_cpu_count os_cpu_count) +:+ " cores..."]) w)
  = (Raised e, (source1, w1)) →
  Watcher_run decode_utf8 chunk_width str_timestamp asleep
    os_cpu_count iterations w =
  (Ok Returned,
   ([set_journal None source1],
    (stop (source1,
           set_stdout (w_stdout w1 ++ ["Error: " +:+ exn_str e]) w1)).2.2)).
Proof.
  intros Hstart. unfold Watcher_run, bind, Sources_start, Watcher_print,
    Sources_stop.
  change (default [] (Sources__init__ ["systemd"]))
    with [__init__ (R:=R) 8 NOW None].
  cbn [for_sources]. rewrite Hstart. cbn [for_sources].
  destruct (stop_releases source1
              (set_stdout (w_stdout w1 ++ ["Error: " +:+ exn_str e]) w1))
    as [Hok Hself].
  destruct (stop _) as [r [s2 w2]]. cbn [fst snd] in *. by subst.
Qed.

End AggregatorMore.

(** *** Further runs on the small journal *)

Lemma entry_to_dict_needs_message_witness :
  _entry_to_dict Ex.decode Ex.entry_blank = None.
Proof.
  destruct (entry_to_dict_needs_message Ex.decode Ex.entry_blank)
    as [Hskip _].
  apply Hskip. exact I.
Defined.

Lemma entry_to_dict_subsystem_witness :
  ∃ ev, _entry_to_dict Ex.decode Ex.entry_a = Some ev ∧
        subsystem ev ≠ "" ∧ subsystem ev = "kernel".
Proof.
  destruct (_entry_to_dict Ex.decode Ex.entry_a) as [ev|] eqn:Hev;
    [| discriminate Hev].
  exists ev. split; [reflexivity |].
  exact (entry_to_dict_subsystem Ex.decode Ex.entry_a ev Hev).
Defined.

Lemma entry_to_dict_structured_data_witness :
  ∃ ev, _entry_to_dict Ex.decode Ex.entry_a = Some ev ∧
        structured_data ev !! "__REALTIME_TIMESTAMP" = None.
Proof.
  destruct (_entry_to_dict Ex.decode Ex.entry_a) as [ev|] eqn:Hev;
    [| discriminate Hev].
  exists ev. split; [reflexivity |].
  destruct (entry_to_dict_structured_data Ex.decode Ex.entry_a ev Hev)
    as (_ & _ & Htime).
  exact (Htime (10 * SECOND) eq_refl).
Defined.


Lemma process_log_chunk_within_end_witness :
  process_log_chunk Ex.decode (Ok Ex.reader) (0, 15 * SECOND) =
    Ok (omap (_entry_to_dict Ex.decode) [Ex.entry_a]) ∧
  10 * SECOND ≤ 15 * SECOND.
Proof.
  split; [reflexivity |].
  refine (process_log_chunk_within_end Ex.decode (Ok Ex.reader) 0
            (15 * SECOND) (omap (_entry_to_dict Ex.decode) [Ex.entry_a])
            _
            (default Ex.event_old (_entry_to_dict Ex.decode Ex.entry_a))
            (10 * SECOND) _ _).
  - reflexivity.
  - cbn. left.
  - reflexivity.
Defined.

Lemma poll_read_error_drops_drained_witness :
  ∃ self',
    poll Ex.decode (Ex.tailing_read_fault, Ex.world)
      = (Raised OSError, (self', Ex.world)) ∧
    history_queue self' = drop 100 (history_queue Ex.tailing_read_fault) ∧
    cursor self' =
      cursor_after Ex.decode [Ex.entry_a; Ex.entry_blank]
        (cursor Ex.tailing_read_fault).
Proof.
  apply (poll_read_error_drops_drained Ex.decode Ex.tailing_read_fault
           Ex.world Ex.reader_read_fault
           (lr_move 1 true Ex.reader_read_fault));
    reflexivity.
Defined.

Lemma poll_touches_only_the_source_witness :
  journal (poll Ex.decode (Ex.stopped, Ex.world)).2.1 = None.
Proof.
  destruct (poll_touches_only_the_source Ex.decode Ex.stopped Ex.world)
    as (_ & _ & _ & Hnone).
  apply Hnone. reflexivity.
Defined.

Lemma poll_twice_is_fifo_witness :
  ∃ first second,
    (poll Ex.decode (Ex.stopped, Ex.world)).1 = Ok first ∧
    (poll Ex.decode (poll Ex.decode (Ex.stopped, Ex.world)).2).1
      = Ok second ∧
    first ++ second = take 200 (history_queue Ex.stopped).
Proof.
  destruct (poll_twice_is_fifo Ex.decode Ex.stopped Ex.world) as [_ Hfifo].
  apply Hfifo. reflexivity.
Defined.

Lemma checkpoint_round_trip_witness :
  (_load_cursor (stop (Ex.resumed, Ex.world)).2.2).1 = Ok (Some "s=1;i=1").
Proof.
  apply (checkpoint_round_trip Ex.resumed Ex.world "s=1;i=1"); reflexivity.
Defined.

Lemma initialize_resumes_at_cursor_witness :
  _initialize_journal_position (Ex.resumed, Ex.world) =
  (Ok tt, (set_journal (Some (lr_move 0 false Ex.reader)) Ex.resumed,
           Ex.world)).
Proof.
  apply (initialize_resumes_at_cursor Ex.resumed Ex.world Ex.reader
           (lr_move 0 false Ex.reader) "s=1;i=1");
    reflexivity.
Defined.

Lemma initialize_falls_back_to_tail_witness :
  _initialize_journal_position (Ex.resumed_no_seek, Ex.world) =
  (Ok tt,
   (set_cursor (Some "s=1;i=2")
      (set_journal (Some (lr_move 1 true Ex.reader_no_seek))
         Ex.resumed_no_seek),
    Ex.world)).
Proof.
  apply (initialize_falls_back_to_tail Ex.resumed_no_seek Ex.world
           Ex.reader_no_seek Ex.reader_no_seek
           (lr_move 2 false Ex.reader_no_seek)
           (lr_move 1 true Ex.reader_no_seek)
           "s=1;i=1" PermissionError (Ok (Some Ex.entry_blank)));
    reflexivity.
Defined.

Lemma initialize_raises_only_from_seek_tail_witness :
  ∃ j1 j2 : DeadReader, seek_tail j1 = (Raised OSError, j2).
Proof.
  apply (initialize_raises_only_from_seek_tail Ex.on_dead_journal
           Ex.world_dead Dead OSError);
    reflexivity.
Defined.

Lemma scan_range_now_is_empty_witness :
  ∃ scan,
    _get_scan_range (30 * SECOND) None NOW Ex.reader
      = (Ok scan, lr_move 1 true Ex.reader) ∧
    scan.1 = entry_time (Some Ex.entry_blank) ∧
    range_valid scan = false.
Proof.
  apply (scan_range_now_is_empty (30 * SECOND) None Ex.reader
           (lr_move 2 false Ex.reader) (lr_move 1 true Ex.reader)
           (lr_move 2 false Ex.reader) (lr_move 1 true Ex.reader)
           (Some Ex.entry_blank));
    reflexivity.
Defined.



Lemma start_with_range_launches_one_witness :
  ∃ st2,
    start Ex.decode Ex.width (Ex.fresh_all, Ex.world) = (Ok tt, st2) ∧
    length (w_threads st2.2) = 1%nat ∧
    history_done st2.1 = false.
Proof.
  destruct (start_with_range_launches_one Ex.decode Ex.width
              (Ex.fresh_all, Ex.world)
              (start_position (Ex.fresh_all, Ex.world)).2
              (10 * SECOND) (20 * SECOND))
    as (st2 & Hstart & Hthreads & Hdone & _).
  - vm_compute. reflexivity.
  - unfold SECOND. lia.
  - exists st2. split; [exact Hstart |].
    rewrite Hthreads, Hdone. split; reflexivity.
Defined.

Lemma start_opens_the_handle_witness :
  is_Some (journal (start Ex.decode Ex.width (Ex.fresh, Ex.world)).2.1) ∧
  w_cursor_dir (start Ex.decode Ex.width (Ex.fresh, Ex.world)).2.2 = true.
Proof.
  apply (start_opens_the_handle Ex.decode Ex.width (Ex.fresh, Ex.world)).
  vm_compute. reflexivity.
Defined.


Lemma sources_start_stops_at_first_failure_witness :
  Sources_start Ex.decode Ex.width
    ([] ++ Ex.fresh :: [Ex.fresh_all], Ex.world_unreadable) =
  (Raised PermissionError,
   ([] ++ Ex.fresh :: [Ex.fresh_all], Ex.world_unreadable)).
Proof.
  apply (sources_start_stops_at_first_failure Ex.decode Ex.width
           [] [Ex.fresh_all] Ex.fresh Ex.world_unreadable
           Ex.world_unreadable Ex.world_unreadable [] Ex.fresh
           PermissionError);
    reflexivity.
Defined.

Lemma watcher_run_start_failure_witness :
  ∃ st,
    Watcher_run Ex.decode Ex.width Ex.show_time Ex.idle (Some 4) 3
      Ex.world_unreadable = (Ok Returned, st) ∧
    w_stdout st.2 =
      ["Starting log watcher on 4 cores..."; "Error: PermissionError";
       "Systemd source stopped."].
Proof.
  eexists. split.
  - apply (watcher_run_start_failure Ex.decode Ex.width Ex.show_time Ex.idle
             (Some 4) 3 Ex.world_unreadable).
    vm_compute. reflexivity.
  - vm_compute. reflexivity.
Defined.
